(** * sniproxy: the ClientHello parser, the peeker, the connection handler
      and the endpoint table, embedded from the Go sources

    - [pkg/sniproxy]: [parseTLSHandshake], [TLSRecord.SNI],
      [peekClientHello], [HandleConnection] (both versions kept in the
      repository: the one that runs a mock [crypto/tls] handshake and the
      one with the manual record parser);
    - [pkg/endpoints]: [EndpointDB.Get].

    Go values are modelled as follows.  A [[]byte] is a length, a capacity
    and the bytes of its backing array ([slice]); [int] is [Z] (no value of
    the program comes near 2^63); [uint16] is [Z] with the wrap-around
    written out; a call that can panic, or a loop that may not end, returns
    an [outcome]. *)

From Stdlib Require Import String Ascii Strings.Byte.
From Stdlib Require Import List ZArith NArith Lia Bool.
Import ListNotations.

Set Implicit Arguments.
Local Open Scope Z_scope.

(* ===================================================================== *)
(** * Outcomes: return, panic, or no answer within the fuel given *)
(* ===================================================================== *)

Inductive outcome (A : Type) : Type :=
| Ret (a : A)             (* the call returned [a] *)
| Panic (msg : string)    (* a Go run-time panic *)
| Diverge.                (* the loop did not end within the fuel *)

Arguments Ret {A} a.
Arguments Panic {A} msg.
Arguments Diverge {A}.

Definition bind {A B : Type} (m : outcome A) (k : A -> outcome B) : outcome B :=
  match m with
  | Ret a => k a
  | Panic msg => Panic msg
  | Diverge => Diverge
  end.

Declare Scope go_scope.
Delimit Scope go_scope with go.
Notation "x <- m ;; k" := (bind m (fun x => k))
  (at level 61, m at next level, right associativity) : go_scope.
Local Open Scope go_scope.

(* ===================================================================== *)
(** * Errors: sentinels, [fmt.Errorf] and [errors.Is] *)
(* ===================================================================== *)

Inductive error : Type :=
| io_EOF                                   (* io.EOF *)
| ReadMore                                 (* var ReadMore = errors.New(...) *)
| NotTLS                                   (* var NotTLS = errors.New(...) *)
| errorString (msg : string)               (* any other error without a cause *)
| wrapError (msg : string) (cause : error). (* fmt.Errorf("msg: %w", cause) *)

(** [err == target] for the targets the program asks for, the three
    sentinels.  (Other errors are equal in Go only to themselves, as
    pointers; the program never asks for them.) *)
Definition same_sentinel (a b : error) : bool :=
  match a, b with
  | io_EOF, io_EOF => true
  | ReadMore, ReadMore => true
  | NotTLS, NotTLS => true
  | _, _ => false
  end.

(** [errors.Is(err, target)]: [err] or an error in its chain of causes is
    [target]. *)
Fixpoint errors_Is (err target : error) : bool :=
  same_sentinel err target ||
  match err with
  | wrapError _ cause => errors_Is cause target
  | _ => false
  end.

(** [err.Error()] *)
Fixpoint Error (err : error) : string :=
  match err with
  | io_EOF => "EOF"
  | ReadMore => "TLS size is greater than provided buffer"
  | NotTLS => "not a TLS handshake"
  | errorString msg => msg
  | wrapError msg cause => msg ++ ": " ++ Error cause
  end%string.

(* ===================================================================== *)
(** * Byte slices *)
(* ===================================================================== *)

Definition byteZ (b : byte) : Z := Z.of_N (Byte.to_N b).

Definition zbyte (z : Z) : byte :=
  match Byte.of_N (Z.to_N (z mod 256)) with
  | Some b => b
  | None => x00
  end.

(** A slice: [elems] are the [len] bytes one may index, [spare] the bytes of
    the backing array behind them, which a reslice [s[lo:hi]] may reach up
    to the capacity. *)
Record slice : Type := mkSlice { elems : list byte; spare : list byte }.

Definition nilSlice : slice := mkSlice [] [].
Definition sliceOf (l : list byte) : slice := mkSlice l [].

Definition len (s : slice) : Z := Z.of_nat (length (elems s)).
Definition cap (s : slice) : Z := Z.of_nat (length (elems s) + length (spare s)).
Definition backing (s : slice) : list byte := elems s ++ spare s.

(** [s[i]]: the index is checked against the length. *)
Definition index (s : slice) (i : Z) : outcome byte :=
  if (0 <=? i) && (i <? len s)
  then Ret (nth (Z.to_nat i) (elems s) x00)
  else Panic "index out of range".

(** [s[lo:hi]]: the bounds are checked against the capacity. *)
Definition reslice (s : slice) (lo hi : Z) : outcome slice :=
  if (0 <=? lo) && (lo <=? hi) && (hi <=? cap s)
  then Ret {| elems := firstn (Z.to_nat (hi - lo)) (skipn (Z.to_nat lo) (backing s));
              spare := skipn (Z.to_nat hi) (backing s) |}
  else Panic "slice bounds out of range".

(** [binary.BigEndian.Uint16(b)]:
    [_ = b[1]; return uint16(b[1]) | uint16(b[0])<<8] *)
Definition Uint16 (b : slice) : outcome Z :=
  b1 <- index b 1 ;;
  b0 <- index b 0 ;;
  Ret (Z.lor (byteZ b1) (Z.shiftl (byteZ b0) 8)).

(** [string(b)] *)
Definition string_of_slice (b : slice) : string := string_of_list_byte (elems b).

(* ===================================================================== *)
(** * The record parser *)
(* ===================================================================== *)

Record TLSHeader : Type := mkHeader { Type_ : Z; Version : Z }.
Record TLSRecord : Type := mkRecord { Header : TLSHeader; Body : slice }.

(** [TLSRecord{}] *)
Definition zeroRecord : TLSRecord := mkRecord (mkHeader 0 0) nilSlice.

Definition uint16 (z : Z) : Z := z mod 65536.

Definition knownVersion (v : Z) : bool :=
  (v =? 0x0301) || (v =? 0x0302) || (v =? 0x0303) || (v =? 0x0304).

Definition parseTLSHandshake (buf : slice) : outcome (TLSRecord * option error) :=
  b0 <- index buf 0 ;;
  if negb (byteZ b0 =? 22) then Ret (zeroRecord, Some NotTLS) else
  v <- reslice buf 1 3 ;;
  version <- Uint16 v ;;
  s <- reslice buf 3 5 ;;
  size <- Uint16 s ;;
  if negb (knownVersion version) then Ret (zeroRecord, Some NotTLS) else
  if uint16 (size + 5) >? len buf then Ret (zeroRecord, Some ReadMore) else
  body <- reslice buf 5 (uint16 (size + 5)) ;;
  Ret (mkRecord (mkHeader 22 version) body, None).

(** The fields of the 5-byte record header, as the parser reads them from
    the backing array. *)
Definition byteAt (l : list byte) (i : nat) : Z := byteZ (nth i l x00).
Definition be16 (l : list byte) (i : nat) : Z := 256 * byteAt l i + byteAt l (S i).

Definition recordType (buf : slice) : Z := byteAt (elems buf) 0.
Definition recordVersion (buf : slice) : Z := be16 (backing buf) 1.
Definition declaredSize (buf : slice) : Z := be16 (backing buf) 3.


(* ===================================================================== *)
(** * Server name extraction: [func (r *TLSRecord) SNI() string] *)
(* ===================================================================== *)

(** [int(r.Body[pos])] *)
Definition readByte (body : slice) (pos : Z) : outcome Z :=
  b <- index body pos ;; Ret (byteZ b).

(** [int(binary.BigEndian.Uint16(r.Body[pos : pos+2]))] *)
Definition readUint16 (body : slice) (pos : Z) : outcome Z :=
  v <- reslice body pos (pos + 2) ;; Uint16 v.

(** The loop over the name list, [for n < pos-3 { ... }].  [Some name] is
    the [return] inside the loop, [None] its normal end.  An entry whose
    type is not 0 moves [n] past the 3-byte entry header only. *)
Fixpoint sniNames (fuel : nat) (body : slice) (n pos end_ : Z) : outcome (option string) :=
  if n <? pos - 3 then
    match fuel with
    | O => Diverge
    | S fuel' =>
        nameType <- readByte body n ;;
        nameSize <- readUint16 body (n + 1) ;;
        let n := n + 3 in
        if nameType =? 0 then
          if n + nameSize >? end_ then Ret (Some EmptyString)
          else
            name <- reslice body n (n + nameSize) ;;
            Ret (Some (string_of_slice name))
        else sniNames fuel' body n pos end_
    end
  else Ret None.

(** The loop over the extensions, [for pos+4 < end { ... }], and the final
    [return ""]. *)
Fixpoint sniExtensions (fuel namesFuel : nat) (body : slice) (pos end_ : Z) : outcome string :=
  if pos + 4 <? end_ then
    match fuel with
    | O => Diverge
    | S fuel' =>
        extType <- readUint16 body pos ;;
        extSize <- readUint16 body (pos + 2) ;;
        let pos := pos + 4 in
        if extType =? 0 then
          if pos >? end_ - 2 then Ret EmptyString else
          namesLength <- readUint16 body pos ;;
          let pos := pos + 2 in
          let n := pos in
          let pos := pos + namesLength in
          if pos >? end_ then Ret EmptyString else
          found <- sniNames namesFuel body n pos end_ ;;
          match found with
          | Some name => Ret name
          | None => sniExtensions fuel' namesFuel body pos end_
          end
        else sniExtensions fuel' namesFuel body (pos + extSize) end_
    end
  else Ret EmptyString.

(** Each loop moves forward by at least 3 bytes a turn and stops at [end],
    which is at most [len(r.Body)]: that many turns are given as fuel
    (the theorems show it is never used up). *)
Definition SNI (r : TLSRecord) : outcome string :=
  let body := Body r in
  let pos := 1 + 3 + 2 + 32 in
  let end_ := len body in
  if pos >? end_ - 1 then Ret EmptyString else
  sessionIdSize <- readByte body pos ;;
  let pos := pos + (1 + sessionIdSize) in
  if pos >? end_ - 2 then Ret EmptyString else
  cipherSuiteSize <- readUint16 body pos ;;
  let pos := pos + (2 + cipherSuiteSize) in
  if pos >? end_ - 1 then Ret EmptyString else
  compressionTypeSize <- readByte body pos ;;
  let pos := pos + (1 + compressionTypeSize) in
  if pos >? end_ - 2 then Ret EmptyString else
  extensionsSize <- readUint16 body pos ;;
  let pos := pos + 2 in
  if pos + extensionsSize >? end_ then Ret EmptyString else
  let end_ := pos + extensionsSize in
  sniExtensions (Z.to_nat (len body)) (Z.to_nat (len body)) body pos end_.

(** ** A ClientHello body, field by field (RFC 5246, 7.4.1.2; RFC 6066, 3)

    Used to state what [SNI] returns on well-formed input; [SNI] itself
    never uses it. *)

Definition u8 (n : Z) : list byte := [zbyte n].
Definition u16 (n : Z) : list byte := [zbyte (n / 256); zbyte n].
Definition lenZ (l : list byte) : Z := Z.of_nat (length l).

(** One [ServerName] entry: name type, 2-byte length, name. *)
Definition encName (e : Z * list byte) : list byte :=
  u8 (fst e) ++ u16 (lenZ (snd e)) ++ snd e.

Definition encNameList (entries : list (Z * list byte)) : list byte :=
  let l := concat (map encName entries) in u16 (lenZ l) ++ l.

(** One extension: 2-byte type, 2-byte length, data. *)
Definition encExtension (x : Z * list byte) : list byte :=
  u16 (fst x) ++ u16 (lenZ (snd x)) ++ snd x.

Definition encExtensions (xs : list (Z * list byte)) : list byte :=
  concat (map encExtension xs).

Definition serverNameExtension (entries : list (Z * list byte)) : Z * list byte :=
  (0, encNameList entries).

Record ClientHello : Type := mkHello {
  preamble : list byte;       (* msg type, 3-byte length, version, random: 38 bytes *)
  sessionId : list byte;
  cipherSuites : list byte;
  compressionMethods : list byte;
  extensions : list (Z * list byte)
}.

Definition encClientHello (h : ClientHello) : list byte :=
  preamble h
  ++ u8 (lenZ (sessionId h)) ++ sessionId h
  ++ u16 (lenZ (cipherSuites h)) ++ cipherSuites h
  ++ u8 (lenZ (compressionMethods h)) ++ compressionMethods h
  ++ u16 (lenZ (encExtensions (extensions h))) ++ encExtensions (extensions h).

(** Every length fits its field and every type its width. *)
Definition wellFormedExtension (x : Z * list byte) : Prop :=
  0 <= fst x < 65536 /\ lenZ (snd x) < 65536.

Definition wellFormedHello (h : ClientHello) : Prop :=
  length (preamble h) = 38%nat /\
  lenZ (sessionId h) < 256 /\
  lenZ (cipherSuites h) < 65536 /\
  lenZ (compressionMethods h) < 256 /\
  lenZ (encExtensions (extensions h)) < 65536 /\
  Forall wellFormedExtension (extensions h).

Definition bytesOfString (s : string) : list byte := list_byte_of_string s.
Definition bytesOfZ (l : list Z) : list byte := map zbyte l.

(** ** Where the fixed part of the body ends

    The offsets [SNI] computes before it enters the extensions, as
    functions of the bytes of the body. *)

Definition byteAtZ (b : list byte) (i : Z) : Z := byteAt b (Z.to_nat i).
Definition be16Z (b : list byte) (i : Z) : Z := be16 b (Z.to_nat i).

(** Offset of the cipher-suites length: behind the session id. *)
Definition cipherSuitesAt (b : list byte) : Z := 38 + (1 + byteAtZ b 38).
(** Offset of the compression-methods length. *)
Definition compressionAt (b : list byte) : Z :=
  cipherSuitesAt b + (2 + be16Z b (cipherSuitesAt b)).
(** Offset of the extensions length. *)
Definition extensionsLenAt (b : list byte) : Z :=
  compressionAt b + (1 + byteAtZ b (compressionAt b)).
Definition extensionsAt (b : list byte) : Z := extensionsLenAt b + 2.
Definition extensionsEnd (b : list byte) : Z :=
  extensionsAt b + be16Z b (extensionsLenAt b).

(** The four lengths of the fixed part and the extensions length stay
    inside the body. *)
Definition prefixFits (b : list byte) : bool :=
  (38 <=? lenZ b - 1) && (cipherSuitesAt b <=? lenZ b - 2) &&
  (compressionAt b <=? lenZ b - 1) && (extensionsLenAt b <=? lenZ b - 2) &&
  (extensionsEnd b <=? lenZ b).

(** [s] is the name of a type-0 entry whose header is at offset [n] and
    which ends at or before [end_]. *)
Definition hostEntryAt (b : list byte) (n end_ : Z) (s : string) : Prop :=
  0 <= n /\ byteAtZ b n = 0 /\ n + 3 + be16Z b (n + 1) <= end_ /\
  s = string_of_list_byte
        (firstn (Z.to_nat (be16Z b (n + 1))) (skipn (Z.to_nat (n + 3)) b)).

(** A server_name extension starts at offset [p]; its name list and the
    type-0 entry at [n] inside the list end at or before [end_]. *)
Definition serverNameAt (b : list byte) (p n end_ : Z) (s : string) : Prop :=
  0 <= p /\ be16Z b p = 0 /\
  p + 6 + be16Z b (p + 4) <= end_ /\
  p + 6 <= n /\ n + 3 < p + 6 + be16Z b (p + 4) /\
  hostEntryAt b n end_ s.

(** ** Sample bodies *)

Definition samplePreamble : list byte := bytesOfZ (1 :: repeat 0 37).

(** A ClientHello with an empty session id, one cipher suite, the null
    compression method and the given extensions. *)
Definition sampleHello (exts : list (Z * list byte)) : ClientHello :=
  mkHello samplePreamble [] (bytesOfZ [0; 47]) (bytesOfZ [0]) exts.

Definition recordOf (body : list byte) : TLSRecord :=
  mkRecord (mkHeader 22 0x0303) (sliceOf body).

(** The body of [sampleHello] with one server_name extension for
    "example.com", except that the length field of the extension says
    65535 instead of 16. *)
Definition oversizedExtensionBody : list byte :=
  samplePreamble ++ u8 0 ++ u16 2 ++ bytesOfZ [0; 47] ++ u8 1 ++ bytesOfZ [0]
  ++ u16 20
  ++ u16 0 ++ u16 65535 ++ encNameList [(0, bytesOfString "example.com")].

(* ===================================================================== *)
(** * Endpoints: [pkg/endpoints] *)
(* ===================================================================== *)

(** ** The fragment of Go's [regexp] package the endpoint table relies on

    [regexp] is Go's library, not code of this repository.  Its documented
    behaviour is modelled for patterns made of literal bytes, escaped
    punctuation, [.], the postfix operators [*], [+], [?] and the
    alternation [|]; any other pattern is outside the model ([Compile]
    answers [None]).  Host names are taken as byte strings. *)

Inductive Regexp : Type :=
| Empty                         (* matches the empty string *)
| Lit (c : ascii)               (* one given byte *)
| AnyCharNotNL                  (* [.]: any byte but a line feed *)
| Cat (r1 r2 : Regexp)
| Alt (r1 r2 : Regexp)
| Star (r : Regexp)
| NoMatch.                      (* matches nothing *)

Definition newline : ascii := Ascii.ascii_of_nat 10.

(** Whether [r] matches the empty string. *)
Fixpoint nullable (r : Regexp) : bool :=
  match r with
  | Empty => true
  | Lit _ => false
  | AnyCharNotNL => false
  | Cat r1 r2 => nullable r1 && nullable r2
  | Alt r1 r2 => nullable r1 || nullable r2
  | Star _ => true
  | NoMatch => false
  end.

(** What is left of [r] once the byte [c] has been read. *)
Fixpoint step (c : ascii) (r : Regexp) : Regexp :=
  match r with
  | Empty => NoMatch
  | Lit d => if Ascii.eqb c d then Empty else NoMatch
  | AnyCharNotNL => if Ascii.eqb c newline then NoMatch else Empty
  | Cat r1 r2 =>
      if nullable r1 then Alt (Cat (step c r1) r2) (step c r2)
      else Cat (step c r1) r2
  | Alt r1 r2 => Alt (step c r1) (step c r2)
  | Star r1 => Cat (step c r1) (Star r1)
  | NoMatch => NoMatch
  end.

(** Some prefix of [s] is matched by [r]. *)
Fixpoint matchPrefix (r : Regexp) (s : string) : bool :=
  nullable r ||
  match s with
  | EmptyString => false
  | String c s' => matchPrefix (step c r) s'
  end.

(** [re.MatchString(s)]: "reports whether the string s contains any match
    of the regular expression re": a match may start at any position. *)
Fixpoint MatchString (re : Regexp) (s : string) : bool :=
  matchPrefix re s ||
  match s with
  | EmptyString => false
  | String _ s' => MatchString re s'
  end.


(** *** Reading a pattern *)

Definition isMeta (c : ascii) : bool :=
  existsb (Ascii.eqb c)
    ["\"; "."; "+"; "*"; "?"; "("; ")"; "|"; "["; "]"; "{"; "}"; "^"; "$"]%char.

(** Escapes of punctuation stand for the byte itself; [\d], [\w], [\b] and
    the like are outside the model. *)
Definition isEscapable (c : ascii) : bool :=
  isMeta c || existsb (Ascii.eqb c) ["-"; "/"; ","; ":"; "_"; "="; "!"; "@"; "#"; "%"; "&"; "~"]%char.

(** Parser state: the alternatives already closed, the atoms of the
    current alternative before the last one, and the last atom, to which a
    postfix operator applies ([true]: it already carries one). *)
Record parseState : Type := mkState {
  closed : option Regexp;
  front : Regexp;
  lastAtom : option (Regexp * bool)
}.

Definition flushAtom (st : parseState) : Regexp :=
  match lastAtom st with
  | Some (a, _) => Cat (front st) a
  | None => front st
  end.

Definition closeAlt (st : parseState) : Regexp :=
  match closed st with
  | Some r => Alt r (flushAtom st)
  | None => flushAtom st
  end.

Definition pushAtom (st : parseState) (a : Regexp) : parseState :=
  mkState (closed st) (flushAtom st) (Some (a, false)).

Definition postfix (st : parseState) (f : Regexp -> Regexp) : option parseState :=
  match lastAtom st with
  | Some (a, false) => Some (mkState (closed st) (front st) (Some (f a, true)))
  | _ => None     (* missing argument, or a repetition of a repetition *)
  end.

Fixpoint parsePattern (p : string) (st : parseState) : option Regexp :=
  match p with
  | EmptyString => Some (closeAlt st)
  | String c p' =>
      if Ascii.eqb c "\" then
        match p' with
        | String d p'' =>
            if isEscapable d then parsePattern p'' (pushAtom st (Lit d)) else None
        | EmptyString => None
        end
      else if Ascii.eqb c "." then parsePattern p' (pushAtom st AnyCharNotNL)
      else if Ascii.eqb c "*" then
        match postfix st Star with Some st' => parsePattern p' st' | None => None end
      else if Ascii.eqb c "+" then
        match postfix st (fun a => Cat a (Star a)) with
        | Some st' => parsePattern p' st' | None => None end
      else if Ascii.eqb c "?" then
        match postfix st (fun a => Alt a Empty) with
        | Some st' => parsePattern p' st' | None => None end
      else if Ascii.eqb c "|" then
        parsePattern p' (mkState (Some (closeAlt st)) Empty None)
      else if isMeta c then None
      else parsePattern p' (pushAtom st (Lit c))
  end.

Definition Compile (pattern : string) : option Regexp :=
  parsePattern pattern (mkState None Empty None).

(** [regexp.MustCompile(pattern)] *)
Definition MustCompile (pattern : string) : outcome Regexp :=
  match Compile pattern with
  | Some re => Ret re
  | None => Panic "regexp: Compile: error parsing regexp"
  end.

(** ** The table *)

(** [regex] is a pointer: [nil] in the zero entry that [Get] returns with
    its error, set by [readFile] in every entry of the table. *)
Record EndpointEntry : Type := mkEntry {
  Domain : string;
  Address : string;
  regex : option Regexp
}.

Record EndpointDB : Type := mkDB {
  endpoints : list EndpointEntry;
  file : string
}.

(** [EndpointEntry{}] *)
Definition zeroEntry : EndpointEntry := mkEntry EmptyString EmptyString None.

(** [ep.regex.MatchString(endpoint)] *)
Definition entryMatches (ep : EndpointEntry) (endpoint : string) : outcome bool :=
  match regex ep with
  | Some re => Ret (MatchString re endpoint)
  | None => Panic "invalid memory address or nil pointer dereference"
  end.

Definition notFound (endpoint : string) : error :=
  errorString ("failed to find entry for endpoint " ++ endpoint).

Fixpoint scanEndpoints (eps : list EndpointEntry) (endpoint : string)
  : outcome (EndpointEntry * option error) :=
  match eps with
  | [] => Ret (zeroEntry, Some (notFound endpoint))
  | ep :: rest =>
      hit <- entryMatches ep endpoint ;;
      if hit then Ret (ep, None) else scanEndpoints rest endpoint
  end.

Definition Get (e : EndpointDB) (endpoint : string) : outcome (EndpointEntry * option error) :=
  scanEndpoints (endpoints e) endpoint.

(** The entry [readFile] appends for a line [domain,address]. *)
Definition newEntry (domain address : string) : outcome EndpointEntry :=
  re <- MustCompile domain ;;
  Ret (mkEntry domain address (Some re)).

Fixpoint appendEntries (eps : list EndpointEntry) (lines : list (string * string))
  : outcome (list EndpointEntry) :=
  match lines with
  | [] => Ret eps
  | (domain, address) :: rest =>
      ep <- newEntry domain address ;;
      appendEntries (eps ++ [ep]) rest
  end.

(** The table [NewEndpointsDB] builds from the lines of the file that hold
    a comma, each already split at its last comma. *)
Definition loadDB (fileName : string) (lines : list (string * string)) : outcome EndpointDB :=
  eps <- appendEntries [] lines ;;
  Ret (mkDB eps fileName).

(** Every entry of the table carries its compiled pattern. *)
Definition compiled (e : EndpointDB) : Prop :=
  Forall (fun ep => regex ep <> None) (endpoints e).

(** Whether the compiled pattern of [ep] finds a match in [endpoint]. *)
Definition entryHit (ep : EndpointEntry) (endpoint : string) : bool :=
  match regex ep with
  | Some re => MatchString re endpoint
  | None => false
  end.


(** The table of the specification's example. *)
Definition sampleLines : list (string * string) :=
  [("a\.com", "10.0.0.1:443"); (".*", "10.0.0.2:443")]%string.

Definition patternOf (p : string) : Regexp :=
  match Compile p with
  | Some re => re
  | None => NoMatch
  end.

Definition aComEntry : EndpointEntry :=
  mkEntry "a\.com" "10.0.0.1:443" (Some (patternOf "a\.com")).
Definition catchAllEntry : EndpointEntry :=
  mkEntry ".*" "10.0.0.2:443" (Some (patternOf ".*")).

Definition sampleDB : EndpointDB := mkDB [aComEntry; catchAllEntry] "endpoints.txt".

(* ===================================================================== *)
(** * The peeker and the connection handler: [pkg/sniproxy] *)
(* ===================================================================== *)

(** ** The connection

    What the [k]-th call [reader.Read(inBuffer)] answers: the bytes it puts
    into the window ([n] is their number) and its error.  [io.Reader] asks
    of [Read] that [0 <= n <= len(p)], so [inBuffer[:n]] is in range; the
    model leaves the size of a chunk free.  A connection is the script of
    its answers, together with the answers of the two [SetReadDeadline]
    calls. *)
Record readResult : Type := mkRead { data : list byte; readErr : option error }.

Definition Reader : Type := nat -> readResult.

Record Conn : Type := mkConn {
  setDeadline : option error;       (* conn.SetReadDeadline(time.Now().Add(60 * time.Second)) *)
  reads : Reader;
  clearDeadline : option error      (* conn.SetReadDeadline(time.Time{}) *)
}.

(** All bytes the first [k] calls of [Read] delivered, in order. *)
Definition bytesRead (rd : Reader) (k : nat) : list byte :=
  concat (map (fun i => data (rd i)) (seq 0 k)).

Definition isErr (err : option error) (target : error) : bool :=
  match err with
  | Some e => errors_Is e target
  | None => false
  end.

(** What a peek hands back: the name, the buffer, the error, and how many
    calls of [Read] the connection has answered. *)
Record peeked : Type := mkPeeked {
  sni : string;
  peekedBytes : list byte;
  peekErr : option error;
  readsDone : nat
}.

Section Peeker.

(** [bytes.Buffer] keeps its bytes in a backing array that is larger than
    its content; [Bytes()] returns a slice of that array, so the bytes
    behind its length are whatever the allocator left there.
    [bufferSpare] gives them for each content. *)
Variable bufferSpare : list byte -> list byte.

(** [peekedBytes.Bytes()] *)
Definition Bytes (content : list byte) : slice := mkSlice content (bufferSpare content).

(** [for err != nil && errors.Is(err, ReadMore) { ... }] followed by
    [return tls.SNI(), peekedBytes, err].  [fuel] bounds the number of
    turns; [k] is the number of reads done so far. *)
Fixpoint peekLoop (fuel : nat) (reader : Reader) (k : nat) (content : list byte)
         (tls : TLSRecord) (err : option error) : outcome peeked :=
  if isErr err ReadMore then
    match fuel with
    | O => Diverge
    | S fuel' =>
        let r := reader k in
        (* peekedBytes.Write(inBuffer[:n]) *)
        let content := content ++ data r in
        match readErr r with
        | Some re =>
            if negb (errors_Is re io_EOF) || negb (isErr err ReadMore) then
              Ret (mkPeeked EmptyString content
                     (Some (wrapError "failed to read from connection" re)) (S k))
            else
              res <- parseTLSHandshake (Bytes content) ;;
              peekLoop fuel' reader (S k) content (fst res) (snd res)
        | None =>
            res <- parseTLSHandshake (Bytes content) ;;
            peekLoop fuel' reader (S k) content (fst res) (snd res)
        end
    end
  else
    name <- SNI tls ;;
    Ret (mkPeeked name content err k).

Definition peekClientHello (fuel : nat) (reader : Reader) : outcome peeked :=
  peekLoop fuel reader 0 [] zeroRecord (Some ReadMore).

(** ** The handler *)

Inductive event : Type :=
| SetReadDeadline                      (* the 60 s deadline is armed *)
| Peeked (reads : nat)                 (* the peek is over, after that many reads *)
| ClearReadDeadline
| Lookup (domainName : string)         (* s.endpointsDB.Get(domainName) *)
| Dial (address : string)              (* net.Dial("tcp", ep.Address) *)
| Relay (replayed : option (list byte)) (address : string)
    (* the two io.Copy; the client side reads io.MultiReader(peekedBytes, conn),
       [None] being a nil [peekedBytes] *)
| Close.                               (* defer conn.Close() *)

(** What a call of the handler did and the error it returned. *)
Definition run : Type := (list event * option error)%type.

(** [net.Dial("tcp", address)] *)
Variable dial : string -> option error.

Definition routeAndRelay (db : EndpointDB) (conn : Conn) (trace : list event)
           (domainName : string) (replayed : option (list byte)) : outcome run :=
  match clearDeadline conn with
  | Some err =>
      Ret (trace ++ [ClearReadDeadline; Close],
           Some (wrapError "error removing timeout" err))
  | None =>
      let trace := trace ++ [ClearReadDeadline; Lookup domainName] in
      got <- Get db domainName ;;
      match snd got with
      | Some err =>
          Ret (trace ++ [Close],
               Some (wrapError ("error routing domain " ++ domainName) err))
      | None =>
          let address := Address (fst got) in
          let trace := trace ++ [Dial address] in
          match dial address with
          | Some err => Ret (trace ++ [Close], Some (wrapError "error dialing backend" err))
          | None => Ret (trace ++ [Relay replayed address; Close], None)
          end
      end
  end.

(** [HandleConnection], the version with the manual record parser. *)
Definition HandleConnection (fuel : nat) (db : EndpointDB) (conn : Conn) : outcome run :=
  match setDeadline conn with
  | Some err => Ret ([SetReadDeadline; Close], Some (wrapError "error setting read timeout" err))
  | None =>
      p <- peekClientHello fuel (reads conn) ;;
      let trace := [SetReadDeadline; Peeked (readsDone p)] in
      match peekErr p with
      | Some err =>
          if errors_Is err NotTLS
          then routeAndRelay db conn trace "*" (Some (peekedBytes p))
          else Ret (trace ++ [Close],
                    Some (errorString ("error reading connection: " ++ Error err)))
      | None => routeAndRelay db conn trace (sni p) (Some (peekedBytes p))
      end
  end.

(** ** The version that runs a mock [crypto/tls] handshake

    [tls.Server(...).Handshake()] is Go's library: [handshake] stands for
    it.  Given the connection it answers the hello its
    [GetConfigForClient] callback was handed, if it was called, the
    bytes the [io.TeeReader] copied, the error of the handshake and the
    number of reads it made. *)
Record ClientHelloInfo : Type := mkInfo { ServerName : string }.

Record handshakeResult : Type := mkHandshake {
  hello : option ClientHelloInfo;
  teed : list byte;
  handshakeErr : option error;
  handshakeReads : nat
}.

Variable handshake : Reader -> handshakeResult.

(** [peekClientHello] of that version: without a hello it returns
    [nil, nil, err]; with one, the hello, the buffer and no error. *)
Definition peekClientHelloTLS (reader : Reader)
  : option ClientHelloInfo * option (list byte) * option error :=
  let h := handshake reader in
  match hello h with
  | None => (None, None, handshakeErr h)
  | Some info => (Some info, Some (teed h), None)
  end.

Definition HandleConnectionTLS (db : EndpointDB) (conn : Conn) : outcome run :=
  match setDeadline conn with
  | Some err => Ret ([SetReadDeadline; Close], Some (wrapError "error setting read timeout" err))
  | None =>
      let '(clientHello, pb, err) := peekClientHelloTLS (reads conn) in
      let trace := [SetReadDeadline; Peeked (handshakeReads (handshake (reads conn)))] in
      match err with
      | Some _ => routeAndRelay db conn trace "*" pb
      | None =>
          match clientHello with
          | Some info => routeAndRelay db conn trace (ServerName info) pb
          | None => Panic "invalid memory address or nil pointer dereference"
          end
      end
  end.

(** What a run comes to at the routing interface: whether the endpoint table was asked, and
    for which name. *)
Fixpoint lookups (trace : list event) : list string :=
  match trace with
  | [] => []
  | Lookup d :: rest => d :: lookups rest
  | _ :: rest => lookups rest
  end.

Inductive decision : Type :=
| Routed (domainName : string)     (* Get was called with this name *)
| Aborted                          (* returned without calling Get *)
| Crashed.                         (* panicked, or never returned *)

Definition decisionOf (o : outcome run) : decision :=
  match o with
  | Ret (trace, _) =>
      match lookups trace with
      | d :: _ => Routed d
      | [] => Aborted
      end
  | _ => Crashed
  end.

End Peeker.

(** ** Sample connections *)

(** The peeker is about to make its [k]-th read with [content] in the
    buffer and [ReadMore] as the verdict so far: every earlier read brought
    no error but [io.EOF], and the parser asked for more each time. *)
Inductive stillPeeking (bufferSpare : list byte -> list byte) (reader : Reader)
  : nat -> list byte -> Prop :=
| peeking_start : stillPeeking bufferSpare reader 0 []
| peeking_more (k : nat) (content : list byte) :
    stillPeeking bufferSpare reader k content ->
    (forall e, readErr (reader k) = Some e -> errors_Is e io_EOF = true) ->
    parseTLSHandshake (Bytes bufferSpare (content ++ data (reader k)))
      = Ret (zeroRecord, Some ReadMore) ->
    stillPeeking bufferSpare reader (S k) (content ++ data (reader k)).

(** No spare capacity, and what [bytes.Buffer] hands out for a content of
    up to 64 bytes: zeroed spare bytes up to a capacity of 64. *)
Definition noSpare : list byte -> list byte := fun _ => [].
Definition smallBufferSpare : list byte -> list byte :=
  fun content => repeat x00 (64 - length content).

(** A client that sends the five header bytes of a record of ten bytes and
    then closes its side: every later read answers no bytes and [io.EOF]. *)
Definition closedAfterHeader : Reader :=
  fun k => match k with
           | O => mkRead (bytesOfZ [22; 3; 1; 0; 10]) None
           | S _ => mkRead [] (Some io_EOF)
           end.

(** A connection whose reads all answer the same. *)
Definition always (r : readResult) : Reader := fun _ => r.

(** A whole ClientHello for "example.com" in one record, given in chunks. *)
Definition helloRecord : list byte :=
  let body := encClientHello
                (sampleHello [serverNameExtension [(0, bytesOfString "example.com")]]) in
  bytesOfZ [22; 3; 1] ++ u16 (lenZ body) ++ body.

Definition inChunks (chunks : list (list byte)) : Reader :=
  fun k => mkRead (nth k chunks []) None.

Definition connOf (reader : Reader) : Conn := mkConn None reader None.
Definition emptyDB : EndpointDB := mkDB [] "endpoints.txt".
Definition dialOk : string -> option error := fun _ => None.

(** A client that sends nothing until the read deadline passes. *)
Definition timedOut : Conn := connOf (always (mkRead [] (Some (errorString "i/o timeout")))).

(* ===================================================================== *)
(** * Loading the table: [readFile] and [NewEndpointsDB] *)
(* ===================================================================== *)

(** [strings.LastIndex(s, sep)] for a separator of one byte: the index of
    its last occurrence in [s], or -1. *)
Fixpoint lastIndexOf (c : ascii) (s : string) : option nat :=
  match s with
  | EmptyString => None
  | String d s' =>
      match lastIndexOf c s' with
      | Some i => Some (S i)
      | None => if Ascii.eqb d c then Some O else None
      end
  end.

Definition LastIndex (s : string) (sep : ascii) : Z :=
  match lastIndexOf sep s with
  | Some i => Z.of_nat i
  | None => -1
  end.

(** [s[lo:hi]] and [s[lo:]] on a string, for indices in range. *)
Definition sliceString (s : string) (lo hi : Z) : string :=
  substring (Z.to_nat lo) (Z.to_nat (hi - lo)) s.

(** The two parts [readFile] cuts a line into,
    [[]string{line[:ind], line[ind+1:]}], or nothing when the line holds
    no comma ([continue]). *)
Definition splitLine (line : string) : option (string * string) :=
  let ind := LastIndex line "," in
  if ind =? -1 then None
  else Some (sliceString line 0 ind,
             sliceString line (ind + 1) (Z.of_nat (String.length line))).

(** The loop [for scanner.Scan() { ... }] over the lines the scanner
    yields. *)
Fixpoint scanLines (eps : list EndpointEntry) (lines : list string)
  : outcome (list EndpointEntry) :=
  match lines with
  | [] => Ret eps
  | line :: rest =>
      match splitLine line with
      | None => scanLines eps rest
      | Some (domain, address) =>
          ep <- newEntry domain address ;;
          scanLines (eps ++ [ep]) rest
      end
  end.

(** [readFile]: [opened] is what [os.Open(e.file)] and the scanner give,
    [None] when the file cannot be opened (the table is left as it is),
    the lines of the file otherwise. *)
Definition readFile (e : EndpointDB) (opened : option (list string)) : outcome EndpointDB :=
  match opened with
  | None => Ret e
  | Some lines =>
      eps <- scanLines (endpoints e) lines ;;
      Ret (mkDB eps (file e))
  end.

(** [NewEndpointsDB(ctx, file)] on a file system [fs]. *)
Definition NewEndpointsDB (fs : string -> option (list string)) (fileName : string)
  : outcome EndpointDB :=
  readFile (mkDB [] fileName) (fs fileName).

(** The lines that hold a comma, cut in two, in the order of the file. *)
Fixpoint splitLines (lines : list string) : list (string * string) :=
  match lines with
  | [] => []
  | line :: rest =>
      match splitLine line with
      | Some parts => parts :: splitLines rest
      | None => splitLines rest
      end
  end.

Definition hasComma (s : string) : Prop := exists a b, s = (a ++ "," ++ b)%string.

Definition rule (ep : EndpointEntry) : string * string := (Domain ep, Address ep).

(** An entry as [readFile] builds it: its pattern is the compiled domain. *)
Definition builtEntry (ep : EndpointEntry) : Prop :=
  regex ep = Compile (Domain ep) /\ regex ep <> None.

(** A file of four lines, two of them rules. *)
Definition sampleFile : string -> option (list string) :=
  fun _ => Some ["a\.com,10.0.0.1:443"; ""; "# no rule here"; ".*,10.0.0.2:443"]%string.

(* ===================================================================== *)
(** * A record on the wire *)
(* ===================================================================== *)

(** The bytes of one handshake record: type 22, version, length, body. *)
Definition recordBytes (version : Z) (body : list byte) : list byte :=
  u8 22 ++ u16 version ++ u16 (lenZ body) ++ body.

(** The events of a trace that are [Close]. *)
Fixpoint closes (trace : list event) : nat :=
  match trace with
  | [] => O
  | Close :: rest => S (closes rest)
  | _ :: rest => closes rest
  end.

(** Whether a trace has a [Relay] event. *)
Definition relayed (trace : list event) : bool :=
  existsb (fun e => match e with Relay _ _ => true | _ => false end) trace.

(** The addresses a trace dials. *)
Fixpoint dials (trace : list event) : list string :=
  match trace with
  | [] => []
  | Dial a :: rest => a :: dials rest
  | _ :: rest => dials rest
  end.

(** A handshake that reads nothing and fails without a hello. *)
Definition noHello : Reader -> handshakeResult :=
  fun _ => mkHandshake None [] (Some (errorString "tls: first record does not look like a TLS handshake")) 1.
(* ===================================================================== *)
(** * Reading bytes and big-endian fields *)
(* ===================================================================== *)

Lemma byteZ_range (b : byte) : 0 <= byteZ b < 256.
Proof.
  unfold byteZ. pose proof (Byte.to_N_bounded b) as H.
  split; [apply N2Z.is_nonneg|]. apply N2Z.inj_le in H. simpl in H. lia.
Qed.

Lemma byteZ_zbyte (z : Z) : byteZ (zbyte z) = z mod 256.
Proof.
  unfold byteZ, zbyte.
  assert (Hr : 0 <= z mod 256 < 256) by (apply Z.mod_pos_bound; lia).
  destruct (Byte.of_N (Z.to_N (z mod 256))) as [b|] eqn:E.
  - apply Byte.to_of_N in E. rewrite E. rewrite Z2N.id; lia.
  - apply Byte.of_N_None_iff in E. apply N2Z.inj_lt in E.
    rewrite Z2N.id in E by lia. simpl in E. lia.
Qed.

Lemma lor_shiftl_bytes (lo hi : Z) :
  0 <= lo < 256 -> 0 <= hi -> Z.lor lo (Z.shiftl hi 8) = 256 * hi + lo.
Proof.
  intros Hlo Hhi.
  assert (Hland : Z.land lo (Z.shiftl hi 8) = 0).
  { apply Z.bits_inj'. intros n Hn. rewrite Z.land_spec, Z.bits_0.
    destruct (Z.ltb_spec n 8) as [Hlt|Hge].
    - rewrite Z.shiftl_spec_low by lia. apply andb_false_r.
    - replace (Z.testbit lo n) with false; [reflexivity|].
      symmetry. apply Z.bits_above_log2; [lia|].
      destruct (Z.eq_dec lo 0) as [->|Hnz]; [simpl; lia|].
      apply Z.log2_lt_pow2; [lia|].
      apply Z.lt_le_trans with (2 ^ 8); [simpl; lia|].
      apply Z.pow_le_mono_r; lia. }
  rewrite <- Z.lxor_lor by exact Hland.
  rewrite <- Z.add_nocarry_lxor by exact Hland.
  rewrite Z.shiftl_mul_pow2 by lia. change (2 ^ 8) with 256. lia.
Qed.

Lemma be16_range (l : list byte) (i : nat) : 0 <= be16 l i < 65536.
Proof.
  unfold be16, byteAt.
  pose proof (byteZ_range (nth i l x00)). pose proof (byteZ_range (nth (S i) l x00)). lia.
Qed.

Lemma index_Ret (s : slice) (i : Z) :
  0 <= i < len s -> index s i = Ret (nth (Z.to_nat i) (elems s) x00).
Proof.
  intros H. unfold index.
  destruct (Z.leb_spec 0 i); [|lia]. destruct (Z.ltb_spec i (len s)); [|lia]. reflexivity.
Qed.

Lemma index_Panic (s : slice) (i : Z) :
  ~ (0 <= i < len s) -> index s i = Panic "index out of range".
Proof.
  intros H. unfold index.
  destruct (Z.leb_spec 0 i); destruct (Z.ltb_spec i (len s)); simpl; try reflexivity; lia.
Qed.

Lemma index_cases (s : slice) (i : Z) :
  (0 <= i < len s /\ index s i = Ret (nth (Z.to_nat i) (elems s) x00)) \/
  (~ (0 <= i < len s) /\ index s i = Panic "index out of range").
Proof.
  destruct (Z_le_dec 0 i); [destruct (Z_lt_dec i (len s))|].
  - left. split; [lia|]. apply index_Ret; lia.
  - right. split; [lia|]. apply index_Panic; lia.
  - right. split; [lia|]. apply index_Panic; lia.
Qed.

Lemma reslice_Ret (s : slice) (lo hi : Z) :
  0 <= lo <= hi -> hi <= cap s ->
  reslice s lo hi =
  Ret {| elems := firstn (Z.to_nat (hi - lo)) (skipn (Z.to_nat lo) (backing s));
         spare := skipn (Z.to_nat hi) (backing s) |}.
Proof.
  intros H1 H2. unfold reslice.
  destruct (Z.leb_spec 0 lo); [|lia]. destruct (Z.leb_spec lo hi); [|lia].
  destruct (Z.leb_spec hi (cap s)); [|lia]. reflexivity.
Qed.

Lemma reslice_Panic (s : slice) (lo hi : Z) :
  ~ (0 <= lo <= hi /\ hi <= cap s) ->
  reslice s lo hi = Panic "slice bounds out of range".
Proof.
  intros H. unfold reslice.
  destruct (Z.leb_spec 0 lo); destruct (Z.leb_spec lo hi);
    destruct (Z.leb_spec hi (cap s)); simpl; try reflexivity; lia.
Qed.

Lemma backing_length (s : slice) : Z.of_nat (length (backing s)) = cap s.
Proof. unfold backing, cap. now rewrite length_app. Qed.

Lemma len_le_cap (s : slice) : len s <= cap s.
Proof. unfold len, cap. lia. Qed.

Lemma nth_firstn_skipn (l : list byte) (a n k : nat) :
  (k < n)%nat -> (a + n <= length l)%nat ->
  nth k (firstn n (skipn a l)) x00 = nth (a + k) l x00.
Proof.
  intros Hk Hl. rewrite nth_firstn. 
  destruct (Nat.ltb_spec k n); [|lia]. now rewrite nth_skipn.
Qed.

(** A two-byte big-endian read [Uint16(s[lo:lo+2])] that stays within the
    capacity returns the two backing bytes at [lo]. *)
Lemma Uint16_reslice (s : slice) (lo : Z) :
  0 <= lo -> lo + 2 <= cap s ->
  (v <- reslice s lo (lo + 2) ;; Uint16 v) = Ret (be16 (backing s) (Z.to_nat lo)).
Proof.
  intros Hlo Hhi. rewrite reslice_Ret by lia. cbn [bind].
  pose proof (backing_length s) as Hb.
  replace (Z.to_nat (lo + 2 - lo)) with 2%nat by lia.
  set (v := {| elems := _; spare := _ |}).
  assert (Hlen : len v = 2).
  { unfold len, v. cbn [elems]. rewrite length_firstn, length_skipn. lia. }
  unfold Uint16. rewrite !index_Ret by lia. cbn [bind].
  unfold v. cbn [elems].
  change (Z.to_nat 1) with 1%nat. change (Z.to_nat 0) with 0%nat.
  rewrite !nth_firstn_skipn by lia.
  rewrite lor_shiftl_bytes by (pose proof (byteZ_range (nth (Z.to_nat lo + 0) (backing s) x00));
                               pose proof (byteZ_range (nth (Z.to_nat lo + 1) (backing s) x00)); lia).
  unfold be16, byteAt. rewrite Nat.add_0_r, Nat.add_1_r. reflexivity.
Qed.

(** Within the length, the backing array and the visible bytes agree. *)
Lemma nth_backing (s : slice) (i : nat) :
  (i < length (elems s))%nat -> nth i (backing s) x00 = nth i (elems s) x00.
Proof. intros H. unfold backing. now rewrite app_nth1. Qed.

Lemma be16_backing (s : slice) (i : nat) :
  (S i < length (elems s))%nat -> be16 (backing s) i = be16 (elems s) i.
Proof. intros H. unfold be16, byteAt. rewrite !nth_backing by lia. reflexivity. Qed.

Lemma readUint16_Ret (s : slice) (lo : Z) :
  0 <= lo -> lo + 2 <= cap s -> readUint16 s lo = Ret (be16 (backing s) (Z.to_nat lo)).
Proof. apply Uint16_reslice. Qed.

Lemma readUint16_visible (s : slice) (lo : Z) :
  0 <= lo -> lo + 2 <= len s -> readUint16 s lo = Ret (be16 (elems s) (Z.to_nat lo)).
Proof.
  intros H1 H2. pose proof (len_le_cap s).
  rewrite readUint16_Ret by lia. f_equal. apply be16_backing. unfold len in H2. lia.
Qed.

Lemma readByte_Ret (s : slice) (i : Z) :
  0 <= i < len s -> readByte s i = Ret (byteAt (elems s) (Z.to_nat i)).
Proof. intros H. unfold readByte. now rewrite index_Ret. Qed.

Lemma read16_bind (A : Type) (s : slice) (lo hi : Z) (k : Z -> outcome A) :
  hi = lo + 2 -> 0 <= lo -> hi <= cap s ->
  (v <- reslice s lo hi ;; x <- Uint16 v ;; k x) = k (be16 (backing s) (Z.to_nat lo)).
Proof.
  intros -> Hlo Hhi. pose proof (Uint16_reslice s Hlo Hhi) as H.
  destruct (reslice s lo (lo + 2)) as [v| |]; cbn [bind] in *; try discriminate.
  now rewrite H.
Qed.

(* ===================================================================== *)
(** * [parseTLSHandshake] *)
(* ===================================================================== *)

Lemma recordType_nonempty (buf : slice) : recordType buf = 22 -> 1 <= len buf.
Proof.
  unfold recordType, byteAt, len. destruct (elems buf) as [|b l]; simpl.
  - discriminate.
  - lia.
Qed.

(** The parser on a buffer whose backing array holds the five header
    bytes: the verdicts in the order the code reaches them. *)
Lemma parse_with_header (buf : slice) :
  1 <= len buf -> 5 <= cap buf ->
  parseTLSHandshake buf =
    if negb (recordType buf =? 22) then Ret (zeroRecord, Some NotTLS)
    else if negb (knownVersion (recordVersion buf)) then Ret (zeroRecord, Some NotTLS)
    else if uint16 (declaredSize buf + 5) >? len buf then Ret (zeroRecord, Some ReadMore)
    else
      body <- reslice buf 5 (uint16 (declaredSize buf + 5)) ;;
      Ret (mkRecord (mkHeader 22 (recordVersion buf)) body, None).
Proof.
  intros Hlen Hcap. unfold parseTLSHandshake.
  rewrite index_Ret by lia. cbn [bind].
  change (byteZ (nth (Z.to_nat 0) (elems buf) x00)) with (recordType buf).
  destruct (negb (recordType buf =? 22)); [reflexivity|].
  rewrite read16_bind by lia.
  rewrite read16_bind by lia.
  reflexivity.
Qed.

(** A buffer that does not start with byte 22 is not a handshake, whatever
    its length and capacity. *)
Lemma parse_other_type (buf : slice) :
  1 <= len buf -> recordType buf <> 22 ->
  parseTLSHandshake buf = Ret (zeroRecord, Some NotTLS).
Proof.
  intros Hlen Hty. unfold parseTLSHandshake.
  rewrite index_Ret by lia. cbn [bind].
  change (byteZ (nth (Z.to_nat 0) (elems buf) x00)) with (recordType buf).
  destruct (Z.eqb_spec (recordType buf) 22); [contradiction|reflexivity].
Qed.

(** A version outside the four known ones is refused, once the backing
    array holds the five header bytes (the size is read first). *)
Lemma parse_unknown_version (buf : slice) :
  1 <= len buf -> 5 <= cap buf -> knownVersion (recordVersion buf) = false ->
  parseTLSHandshake buf = Ret (zeroRecord, Some NotTLS).
Proof.
  intros Hlen Hcap Hv. rewrite parse_with_header by assumption.
  rewrite Hv. destruct (negb (recordType buf =? 22)); reflexivity.
Qed.

(** With fewer than five bytes of capacity a buffer that starts with 22
    makes the parser panic, whatever the version says. *)
Lemma parse_short_array_panics (buf : slice) :
  recordType buf = 22 -> cap buf < 5 ->
  parseTLSHandshake buf = Panic "slice bounds out of range".
Proof.
  intros Hty Hcap. pose proof (recordType_nonempty buf Hty) as Hlen.
  unfold parseTLSHandshake. rewrite index_Ret by lia. cbn [bind].
  change (byteZ (nth (Z.to_nat 0) (elems buf) x00)) with (recordType buf).
  rewrite Hty. cbn [Z.eqb negb Pos.eqb].
  destruct (Z_le_dec 3 (cap buf)) as [H3|H3].
  - rewrite read16_bind by lia.
    rewrite (@reslice_Panic buf 3 5) by lia. reflexivity.
  - rewrite (@reslice_Panic buf 1 3) by lia. reflexivity.
Qed.

Lemma parse_empty_panics (buf : slice) :
  len buf = 0 -> parseTLSHandshake buf = Panic "index out of range".
Proof.
  intros H. unfold parseTLSHandshake. rewrite index_Panic by lia. reflexivity.
Qed.

(** A declared size of 65531 or more wraps [size+5] around to less than 5:
    the length test passes and the slice [buf[5 : size+5]] panics. *)
Lemma parse_size_wraps (buf : slice) :
  5 <= len buf -> recordType buf = 22 -> knownVersion (recordVersion buf) = true ->
  65531 <= declaredSize buf ->
  parseTLSHandshake buf = Panic "slice bounds out of range".
Proof.
  intros Hlen Hty Hv Hsz. pose proof (len_le_cap buf).
  rewrite parse_with_header by lia. rewrite Hty, Hv. cbn [Z.eqb negb Pos.eqb].
  pose proof (be16_range (backing buf) 3) as Hr. fold (declaredSize buf) in Hr.
  assert (Hw : uint16 (declaredSize buf + 5) = declaredSize buf + 5 - 65536).
  { unfold uint16. symmetry. apply Z.mod_unique with 1; lia. }
  rewrite Hw. destruct (Z.gtb_spec (declaredSize buf + 5 - 65536) (len buf)); [lia|].
  rewrite reslice_Panic by lia. reflexivity.
Qed.

(** The four things the parser can answer. *)
Lemma parse_verdicts (buf : slice) :
  (exists msg, parseTLSHandshake buf = Panic msg) \/
  parseTLSHandshake buf = Ret (zeroRecord, Some NotTLS) \/
  parseTLSHandshake buf = Ret (zeroRecord, Some ReadMore) \/
  (exists r, parseTLSHandshake buf = Ret (r, None)).
Proof.
  unfold parseTLSHandshake, Uint16, index, reslice.
  repeat (match goal with
          | |- context [if ?c then _ else _] => destruct c
          end; cbn [bind]); eauto.
Qed.

(** An incomplete record that starts like a handshake and declares at
    most 65530 bytes. *)
Lemma parse_reads_more (buf : slice) :
  5 <= cap buf ->
  recordType buf = 22 ->
  knownVersion (recordVersion buf) = true ->
  declaredSize buf <= 65530 ->
  len buf < 5 + declaredSize buf ->
  parseTLSHandshake buf = Ret (zeroRecord, Some ReadMore).
Proof.
  intros Hcap Hty Hv Hmax Hshort.
  pose proof (recordType_nonempty buf Hty) as Hlen.
  rewrite parse_with_header by assumption. rewrite Hty, Hv. cbn [Z.eqb negb Pos.eqb].
  pose proof (be16_range (backing buf) 3) as Hr. fold (declaredSize buf) in Hr.
  assert (Hw : uint16 (declaredSize buf + 5) = declaredSize buf + 5).
  { unfold uint16. apply Z.mod_small. lia. }
  rewrite Hw. destruct (Z.gtb_spec (declaredSize buf + 5) (len buf)); [reflexivity|lia].
Qed.




(** The same holds with a good first byte and a version the parser does
    not know. *)
Example parse_incomplete_bad_version :
  let buf := sliceOf (bytesOfZ [22; 2; 0; 0; 10]) in
  len buf < 5 + declaredSize buf /\
  parseTLSHandshake buf = Ret (zeroRecord, Some NotTLS).
Proof. vm_compute. split; reflexivity. Qed.

(** Buffers the amended C1 leaves out: a declared size of 65535, the empty
    buffer, and a three-byte buffer without spare capacity all panic; two
    bytes in front of 62 zeroed spare bytes, as [bytes.Buffer] hands out
    after a first short write, are answered [NotTLS]. *)
Example parse_size_65535 :
  parseTLSHandshake (sliceOf (bytesOfZ [22; 3; 1; 255; 255; 1; 0; 0]))
  = Panic "slice bounds out of range".
Proof. reflexivity. Qed.

Example parse_empty_buffer :
  parseTLSHandshake (sliceOf []) = Panic "index out of range".
Proof. reflexivity. Qed.

Example parse_three_bytes :
  parseTLSHandshake (sliceOf (bytesOfZ [22; 3; 1])) = Panic "slice bounds out of range".
Proof. reflexivity. Qed.

Example parse_two_bytes_zeroed_spare :
  parseTLSHandshake (mkSlice (bytesOfZ [22; 3]) (repeat x00 62))
  = Ret (zeroRecord, Some NotTLS).
Proof. reflexivity. Qed.


(* ===================================================================== *)
(** * [SNI]: no panic, no read outside the body *)
(* ===================================================================== *)

Lemma lenZ_len (b sp : list byte) : len (mkSlice b sp) = lenZ b.
Proof. reflexivity. Qed.

Lemma readByte_body (b sp : list byte) (i : Z) :
  0 <= i < lenZ b -> readByte (mkSlice b sp) i = Ret (byteAtZ b i).
Proof. intros H. now rewrite readByte_Ret. Qed.

Lemma readUint16_body (b sp : list byte) (i : Z) :
  0 <= i -> i + 2 <= lenZ b -> readUint16 (mkSlice b sp) i = Ret (be16Z b i).
Proof. intros H1 H2. now rewrite readUint16_visible. Qed.

Lemma byteAtZ_range (b : list byte) (i : Z) : 0 <= byteAtZ b i < 256.
Proof. apply byteZ_range. Qed.

Lemma be16Z_range (b : list byte) (i : Z) : 0 <= be16Z b i < 65536.
Proof. apply be16_range. Qed.

Lemma firstn_skipn_app (A : Type) (l l' : list A) (a k : nat) :
  (a + k <= length l)%nat -> firstn k (skipn a (l ++ l')) = firstn k (skipn a l).
Proof.
  intros H. rewrite skipn_app, firstn_app, length_skipn.
  replace (k - (length l - a))%nat with 0%nat by lia.
  rewrite firstn_O. apply app_nil_r.
Qed.

(** The name a type-0 entry yields is cut from the visible bytes. *)
Lemma reslice_name (b sp : list byte) (n size : Z) :
  0 <= n -> 0 <= size -> n + size <= lenZ b ->
  (name <- reslice (mkSlice b sp) n (n + size) ;; Ret (Some (string_of_slice name)))
  = Ret (Some (string_of_list_byte (firstn (Z.to_nat size) (skipn (Z.to_nat n) b)))).
Proof.
  intros Hn Hs Hfit. unfold lenZ in Hfit.
  rewrite reslice_Ret by (unfold cap; cbn [elems spare]; lia).
  cbn [bind]. unfold string_of_slice, backing. cbn [elems spare].
  replace (n + size - n) with size by lia.
  rewrite firstn_skipn_app by lia. reflexivity.
Qed.

(** One turn of each loop, with the reads replaced by the bytes they
    deliver. *)
Lemma sniNames_step (b sp : list byte) (fuel : nat) (n pos end_ : Z) :
  0 <= n -> n < pos - 3 -> pos <= lenZ b ->
  sniNames (S fuel) (mkSlice b sp) n pos end_ =
    if byteAtZ b n =? 0 then
      if n + 3 + be16Z b (n + 1) >? end_ then Ret (Some EmptyString)
      else
        name <- reslice (mkSlice b sp) (n + 3) (n + 3 + be16Z b (n + 1)) ;;
        Ret (Some (string_of_slice name))
    else sniNames fuel (mkSlice b sp) (n + 3) pos end_.
Proof.
  intros Hn Hlt Hpos. cbn [sniNames].
  destruct (Z.ltb_spec n (pos - 3)); [|lia].
  rewrite readByte_body by lia. cbn [bind].
  rewrite readUint16_body by lia. cbn [bind]. reflexivity.
Qed.

Lemma sniNames_done (body : slice) (fuel : nat) (n pos end_ : Z) :
  pos - 3 <= n -> sniNames fuel body n pos end_ = Ret None.
Proof.
  intros H. destruct fuel; cbn [sniNames]; destruct (Z.ltb_spec n (pos - 3)); try lia; reflexivity.
Qed.

Lemma sniExtensions_step (b sp : list byte) (fuel namesFuel : nat) (pos end_ : Z) :
  0 <= pos -> pos + 4 < end_ -> end_ <= lenZ b ->
  sniExtensions (S fuel) namesFuel (mkSlice b sp) pos end_ =
    if be16Z b pos =? 0 then
      if pos + 4 >? end_ - 2 then Ret EmptyString else
      if pos + 4 + 2 + be16Z b (pos + 4) >? end_ then Ret EmptyString else
      found <- sniNames namesFuel (mkSlice b sp) (pos + 4 + 2)
                 (pos + 4 + 2 + be16Z b (pos + 4)) end_ ;;
      match found with
      | Some name => Ret name
      | None => sniExtensions fuel namesFuel (mkSlice b sp)
                  (pos + 4 + 2 + be16Z b (pos + 4)) end_
      end
    else sniExtensions fuel namesFuel (mkSlice b sp) (pos + 4 + be16Z b (pos + 2)) end_.
Proof.
  intros Hpos Hlt Hend. cbn [sniExtensions].
  destruct (Z.ltb_spec (pos + 4) end_); [|lia].
  rewrite !readUint16_body by lia. cbn [bind].
  destruct (be16Z b pos =? 0); [|reflexivity].
  destruct (Z.gtb_spec (pos + 4) (end_ - 2)); [reflexivity|].
  rewrite readUint16_body by lia. cbn [bind]. reflexivity.
Qed.

Lemma sniExtensions_done (body : slice) (fuel namesFuel : nat) (pos end_ : Z) :
  end_ <= pos + 4 -> sniExtensions fuel namesFuel body pos end_ = Ret EmptyString.
Proof.
  intros H. destruct fuel; cbn [sniExtensions];
    destruct (Z.ltb_spec (pos + 4) end_); try lia; reflexivity.
Qed.

(** The name loop, started inside the body with enough fuel, returns; what
    it returns does not depend on the spare capacity; a name that is not
    empty is that of a type-0 entry that ends before [end_]. *)
Lemma sniNames_returns (b : list byte) (end_ : Z) (fuel : nat) :
  forall n pos,
    0 <= n -> pos <= end_ -> end_ <= lenZ b -> pos - n <= Z.of_nat fuel ->
    exists o,
      (forall sp, sniNames fuel (mkSlice b sp) n pos end_ = Ret o) /\
      (forall s, o = Some s -> s <> EmptyString ->
                 exists m, n <= m /\ m + 3 < pos /\ hostEntryAt b m end_ s).
Proof.
  induction fuel as [|fuel IH]; intros n pos Hn Hpos Hend Hfuel.
  - exists None. split.
    + intros sp. apply sniNames_done. lia.
    + intros s Hs. discriminate.
  - destruct (Z_lt_dec n (pos - 3)) as [Hlt|Hge].
    2:{ exists None. split; [intros sp; apply sniNames_done; lia|]. intros s Hs. discriminate. }
    pose proof (be16Z_range b (n + 1)) as Hr.
    destruct (Z.eqb_spec (byteAtZ b n) 0) as [Hty|Hty].
    + destruct (Z.gtb_spec (n + 3 + be16Z b (n + 1)) end_) as [Hover|Hfit].
      * exists (Some EmptyString). split.
        -- intros sp. rewrite sniNames_step by lia.
           destruct (Z.eqb_spec (byteAtZ b n) 0); [|contradiction].
           destruct (Z.gtb_spec (n + 3 + be16Z b (n + 1)) end_); [reflexivity|lia].
        -- intros s Hs Hne. injection Hs as <-. contradiction.
      * eexists. split.
        -- intros sp. rewrite sniNames_step by lia.
           destruct (Z.eqb_spec (byteAtZ b n) 0); [|contradiction].
           destruct (Z.gtb_spec (n + 3 + be16Z b (n + 1)) end_); [lia|].
           apply reslice_name; lia.
        -- intros s Hs Hne. injection Hs as <-.
           exists n. split; [lia|]. split; [lia|].
           unfold hostEntryAt. repeat split; try assumption; lia.
    + destruct (IH (n + 3) pos) as [o [Ho Hname]]; try lia.
      exists o. split.
      * intros sp. rewrite sniNames_step by lia.
        destruct (Z.eqb_spec (byteAtZ b n) 0); [contradiction|]. apply Ho.
      * intros s Hs Hne. destruct (Hname s Hs Hne) as [m [Hm1 [Hm2 Hm3]]].
        exists m. split; [lia|]. split; assumption.
Qed.

(** The same for the loop over the extensions. *)
Lemma sniExtensions_returns (b : list byte) (end_ : Z) (namesFuel fuel : nat) :
  forall pos,
    0 <= pos -> end_ <= lenZ b -> lenZ b <= Z.of_nat namesFuel ->
    end_ - pos <= Z.of_nat fuel ->
    exists name,
      (forall sp, sniExtensions fuel namesFuel (mkSlice b sp) pos end_ = Ret name) /\
      (name <> EmptyString -> exists p n, pos <= p /\ serverNameAt b p n end_ name).
Proof.
  induction fuel as [|fuel IH]; intros pos Hpos Hend Hnf Hfuel.
  - exists EmptyString. split.
    + intros sp. apply sniExtensions_done. lia.
    + intros Hne. contradiction.
  - destruct (Z_lt_dec (pos + 4) end_) as [Hlt|Hge].
    2:{ exists EmptyString. split; [intros sp; apply sniExtensions_done; lia|].
        intros Hne. contradiction. }
    pose proof (be16Z_range b (pos + 2)) as Hsize.
    pose proof (be16Z_range b (pos + 4)) as Hnames.
    destruct (Z.eqb_spec (be16Z b pos) 0) as [Hty|Hty].
    + destruct (Z.gtb_spec (pos + 4) (end_ - 2)) as [Hshort|Hroom].
      { exists EmptyString. split.
        - intros sp. rewrite sniExtensions_step by lia.
          destruct (Z.eqb_spec (be16Z b pos) 0); [|contradiction].
          destruct (Z.gtb_spec (pos + 4) (end_ - 2)); [reflexivity|lia].
        - intros Hne. contradiction. }
      destruct (Z.gtb_spec (pos + 4 + 2 + be16Z b (pos + 4)) end_) as [Hover|Hfit].
      { exists EmptyString. split.
        - intros sp. rewrite sniExtensions_step by lia.
          destruct (Z.eqb_spec (be16Z b pos) 0); [|contradiction].
          destruct (Z.gtb_spec (pos + 4) (end_ - 2)); [lia|].
          destruct (Z.gtb_spec (pos + 4 + 2 + be16Z b (pos + 4)) end_); [reflexivity|lia].
        - intros Hne. contradiction. }
      destruct (@sniNames_returns b end_ namesFuel (pos + 4 + 2)
                  (pos + 4 + 2 + be16Z b (pos + 4))) as [o [Ho Hname]]; try lia.
      assert (Hhead : forall sp,
                 sniExtensions (S fuel) namesFuel (mkSlice b sp) pos end_
                 = match o with
                   | Some name => Ret name
                   | None => sniExtensions fuel namesFuel (mkSlice b sp)
                               (pos + 4 + 2 + be16Z b (pos + 4)) end_
                   end).
      { intros sp. rewrite sniExtensions_step by lia.
        destruct (Z.eqb_spec (be16Z b pos) 0); [|contradiction].
        destruct (Z.gtb_spec (pos + 4) (end_ - 2)); [lia|].
        destruct (Z.gtb_spec (pos + 4 + 2 + be16Z b (pos + 4)) end_); [lia|].
        rewrite Ho. reflexivity. }
      destruct o as [name|].
      * exists name. split; [exact Hhead|].
        intros Hne. destruct (Hname name eq_refl Hne) as [m [Hm1 [Hm2 Hm3]]].
        exists pos, m. split; [lia|].
        unfold serverNameAt. split; [lia|]. split; [assumption|].
        split; [lia|]. split; [lia|]. split; [lia|]. exact Hm3.
      * destruct (IH (pos + 4 + 2 + be16Z b (pos + 4))) as [name [Hn Hprop]]; try lia.
        exists name. split.
        -- intros sp. rewrite Hhead. apply Hn.
        -- intros Hne. destruct (Hprop Hne) as [p [n [Hp Hs]]].
           exists p, n. split; [lia|assumption].
    + destruct (IH (pos + 4 + be16Z b (pos + 2))) as [name [Hn Hprop]]; try lia.
      exists name. split.
      * intros sp. rewrite sniExtensions_step by lia.
        destruct (Z.eqb_spec (be16Z b pos) 0); [contradiction|]. apply Hn.
      * intros Hne. destruct (Hprop Hne) as [p [n [Hp Hs]]].
        exists p, n. split; [lia|assumption].
Qed.

(** [SNI] is its five guarded reads of the fixed part followed by the loop
    over the extensions. *)
Lemma SNI_fixed_part (hdr : TLSHeader) (b sp : list byte) :
  SNI (mkRecord hdr (mkSlice b sp)) =
    if prefixFits b
    then sniExtensions (Z.to_nat (lenZ b)) (Z.to_nat (lenZ b)) (mkSlice b sp)
           (extensionsAt b) (extensionsEnd b)
    else Ret EmptyString.
Proof.
  unfold SNI, prefixFits. cbn [Body]. rewrite lenZ_len.
  change (1 + 3 + 2 + 32) with 38.
  pose proof (byteAtZ_range b 38) as Ra.
  destruct (Z.gtb_spec 38 (lenZ b - 1)); destruct (Z.leb_spec 38 (lenZ b - 1));
    try lia; [reflexivity|].
  rewrite readByte_body by lia. cbn [bind andb]. fold (cipherSuitesAt b).
  pose proof (be16Z_range b (cipherSuitesAt b)) as Rb.
  assert (Ra' : 39 <= cipherSuitesAt b) by (unfold cipherSuitesAt; lia).
  destruct (Z.gtb_spec (cipherSuitesAt b) (lenZ b - 2));
    destruct (Z.leb_spec (cipherSuitesAt b) (lenZ b - 2)); try lia; [reflexivity|].
  rewrite readUint16_body by lia. cbn [bind andb]. fold (compressionAt b).
  assert (Rb' : cipherSuitesAt b + 2 <= compressionAt b) by (unfold compressionAt; lia).
  pose proof (byteAtZ_range b (compressionAt b)) as Rc.
  destruct (Z.gtb_spec (compressionAt b) (lenZ b - 1));
    destruct (Z.leb_spec (compressionAt b) (lenZ b - 1)); try lia; [reflexivity|].
  rewrite readByte_body by lia. cbn [bind andb]. fold (extensionsLenAt b).
  assert (Rc' : compressionAt b + 1 <= extensionsLenAt b) by (unfold extensionsLenAt; lia).
  destruct (Z.gtb_spec (extensionsLenAt b) (lenZ b - 2));
    destruct (Z.leb_spec (extensionsLenAt b) (lenZ b - 2)); try lia; [reflexivity|].
  rewrite readUint16_body by lia. cbn [bind andb].
  fold (extensionsAt b). fold (extensionsEnd b).
  destruct (Z.gtb_spec (extensionsEnd b) (lenZ b));
    destruct (Z.leb_spec (extensionsEnd b) (lenZ b)); try lia; reflexivity.
Qed.

Lemma extensionsAt_pos (b : list byte) : 43 <= extensionsAt b.
Proof.
  unfold extensionsAt, extensionsLenAt, compressionAt, cipherSuitesAt.
  pose proof (byteAtZ_range b 38).
  pose proof (be16Z_range b (38 + (1 + byteAtZ b 38))).
  pose proof (byteAtZ_range b (38 + (1 + byteAtZ b 38) + (2 + be16Z b (38 + (1 + byteAtZ b 38))))).
  lia.
Qed.

(** For every body there is one name that [SNI] returns whatever lies
    behind the body in its backing array; a name that is not empty comes
    from a server_name extension inside the extensions block. *)
Lemma SNI_returns (hdr : TLSHeader) (b : list byte) :
  exists name,
    (forall sp, SNI (mkRecord hdr (mkSlice b sp)) = Ret name) /\
    (name <> EmptyString ->
     prefixFits b = true /\
     exists p n, extensionsAt b <= p /\ serverNameAt b p n (extensionsEnd b) name).
Proof.
  destruct (prefixFits b) eqn:Hfit.
  - assert (Hend : extensionsEnd b <= lenZ b).
    { unfold prefixFits in Hfit. apply andb_prop in Hfit. destruct Hfit as [_ H].
      now apply Z.leb_le in H. }
    pose proof (extensionsAt_pos b) as Hpos.
    destruct (@sniExtensions_returns b (extensionsEnd b) (Z.to_nat (lenZ b))
                (Z.to_nat (lenZ b)) (extensionsAt b)) as [name [Hn Hprop]]; try lia.
    exists name. split.
    + intros sp. rewrite SNI_fixed_part, Hfit. apply Hn.
    + intros Hne. split; [reflexivity|]. apply Hprop, Hne.
  - exists EmptyString. split.
    + intros sp. rewrite SNI_fixed_part, Hfit. reflexivity.
    + intros Hne. contradiction.
Qed.

Lemma SNI_total (r : TLSRecord) : exists name, SNI r = Ret name.
Proof.
  destruct r as [hdr [b sp]]. destruct (SNI_returns hdr b) as [name [Hret _]].
  exists name. apply Hret.
Qed.

(** C3, as amended.  For every body, whatever lies behind it in its
    backing array, [SNI] returns: it does not panic and its result does not
    depend on the bytes outside the body.  It returns the empty string
    whenever the body has fewer than 39 bytes, or the session-id,
    cipher-suites or compression-methods length leaves no room in the body
    for the length field behind it, or the extensions length runs past the
    end of the body.  A result that is not empty is the name of a type-0
    entry of a server_name extension whose name list and whose name end
    inside the extensions block, which ends inside the body. *)
Theorem SNI_stays_inside_body (hdr : TLSHeader) (b : list byte) :
  exists name,
    (forall sp, SNI (mkRecord hdr (mkSlice b sp)) = Ret name) /\
    (prefixFits b = false -> name = EmptyString) /\
    (name <> EmptyString ->
     extensionsEnd b <= lenZ b /\
     exists p n, extensionsAt b <= p /\ serverNameAt b p n (extensionsEnd b) name).
Proof.
  destruct (SNI_returns hdr b) as [name [Hret Hname]].
  exists name. split; [exact Hret|]. split.
  - intros Hfit. specialize (Hret []).
    rewrite SNI_fixed_part, Hfit in Hret. now injection Hret as <-.
  - intros Hne. destruct (Hname Hne) as [Hfit Hsrv]. split; [|exact Hsrv].
    unfold prefixFits in Hfit. apply andb_prop in Hfit. destruct Hfit as [_ H].
    now apply Z.leb_le in H.
Qed.

Lemma SNI_stays_inside_body_witness :
  exists name,
    (forall sp, SNI (mkRecord (mkHeader 22 0x0303)
                       (mkSlice (encClientHello
                                   (sampleHello [serverNameExtension
                                                   [(0, bytesOfString "example.com")]])) sp))
                = Ret name) /\
    name = "example.com"%string.
Proof.
  destruct (SNI_stays_inside_body (mkHeader 22 0x0303)
              (encClientHello
                 (sampleHello [serverNameExtension [(0, bytesOfString "example.com")]])))
    as [name [Hret _]].
  exists name. split; [exact Hret|].
  specialize (Hret []). vm_compute in Hret. now injection Hret as <-.
Defined.

(** C3, as stated, fails: the server_name extension of this body declares
    65535 bytes of data, far more than the body holds, and [SNI] still
    returns "example.com": on a server_name extension the extension length
    is read and not used. *)
Lemma SNI_unchecked_extension_length_counterexample :
  let b := oversizedExtensionBody in
  lenZ b = 67 /\
  extensionsAt b = 47 /\
  be16Z b (extensionsAt b) = 0 /\
  be16Z b (extensionsAt b + 2) = 65535 /\
  lenZ b < extensionsAt b + 4 + be16Z b (extensionsAt b + 2) /\
  SNI (recordOf b) = Ret "example.com"%string /\
  SNI (recordOf b) <> Ret EmptyString.
Proof. vm_compute. repeat split; try reflexivity; discriminate. Qed.

(** Truncated and empty bodies. *)
Example SNI_empty_body : SNI zeroRecord = Ret EmptyString.
Proof. reflexivity. Qed.

Example SNI_truncated_in_name :
  SNI (recordOf (firstn 60
         (encClientHello (sampleHello [serverNameExtension
                                         [(0, bytesOfString "example.com")]]))))
  = Ret EmptyString.
Proof. vm_compute. reflexivity. Qed.

(* ===================================================================== *)
(** * [SNI] on a well-formed ClientHello *)
(* ===================================================================== *)

Lemma lenZ_app (l1 l2 : list byte) : lenZ (l1 ++ l2) = lenZ l1 + lenZ l2.
Proof. unfold lenZ. rewrite length_app. lia. Qed.

Lemma lenZ_u8 (v : Z) : lenZ (u8 v) = 1.
Proof. reflexivity. Qed.

Lemma lenZ_u16 (v : Z) : lenZ (u16 v) = 2.
Proof. reflexivity. Qed.

Lemma lenZ_nonneg (l : list byte) : 0 <= lenZ l.
Proof. unfold lenZ. lia. Qed.

Lemma encExtensions_cons (x : Z * list byte) (xs : list (Z * list byte)) :
  encExtensions (x :: xs) = encExtension x ++ encExtensions xs.
Proof. reflexivity. Qed.

Lemma encExtensions_app (xs ys : list (Z * list byte)) :
  encExtensions (xs ++ ys) = encExtensions xs ++ encExtensions ys.
Proof. unfold encExtensions. now rewrite map_app, concat_app. Qed.

Lemma lenZ_encExtension (x : Z * list byte) : lenZ (encExtension x) = 4 + lenZ (snd x).
Proof. unfold encExtension. rewrite !lenZ_app, !lenZ_u16. lia. Qed.

Lemma lenZ_encName (e : Z * list byte) : lenZ (encName e) = 3 + lenZ (snd e).
Proof. unfold encName. rewrite !lenZ_app, lenZ_u16, lenZ_u8. lia. Qed.

Lemma lenZ_encNameList (entries : list (Z * list byte)) :
  lenZ (encNameList entries) = 2 + lenZ (concat (map encName entries)).
Proof. unfold encNameList. now rewrite lenZ_app, lenZ_u16. Qed.

Lemma encExtensions_count (xs : list (Z * list byte)) :
  4 * Z.of_nat (length xs) <= lenZ (encExtensions xs).
Proof.
  induction xs as [|x xs IH].
  - cbn. lia.
  - rewrite encExtensions_cons, lenZ_app, lenZ_encExtension.
    pose proof (lenZ_nonneg (snd x)). cbn [length]. lia.
Qed.

Create Rewrite HintDb lens.
#[local] Hint Rewrite lenZ_app lenZ_u8 lenZ_u16 lenZ_encExtension lenZ_encName
  lenZ_encNameList encExtensions_cons : lens.

(** Reading a field that was written at the end of [pre]. *)
Lemma byteAtZ_at (b pre rest : list byte) (v pos : Z) :
  b = pre ++ u8 v ++ rest -> pos = lenZ pre -> 0 <= v < 256 -> byteAtZ b pos = v.
Proof.
  intros -> -> Hv. unfold byteAtZ, byteAt, lenZ, u8. rewrite Nat2Z.id.
  cbn [app]. rewrite nth_middle, byteZ_zbyte. apply Z.mod_small. lia.
Qed.

Lemma be16Z_at (b pre rest : list byte) (v pos : Z) :
  b = pre ++ u16 v ++ rest -> pos = lenZ pre -> 0 <= v < 65536 -> be16Z b pos = v.
Proof.
  intros -> -> Hv. unfold be16Z, be16, byteAt, lenZ, u16. rewrite Nat2Z.id.
  cbn [app]. rewrite nth_middle.
  rewrite app_nth2 by lia.
  replace (S (length pre) - length pre)%nat with 1%nat by lia. cbn [nth].
  rewrite !byteZ_zbyte.
  rewrite (Z.mod_small (v / 256)) by (split; [apply Z.div_pos; lia|apply Z.div_lt_upper_bound; lia]).
  pose proof (Z.div_mod v 256). lia.
Qed.

Lemma firstn_skipn_at (b pre x rest : list byte) (pos size : Z) :
  b = pre ++ x ++ rest -> pos = lenZ pre -> size = lenZ x ->
  firstn (Z.to_nat size) (skipn (Z.to_nat pos) b) = x.
Proof.
  intros -> -> ->. unfold lenZ. rewrite !Nat2Z.id.
  rewrite skipn_app, skipn_all, Nat.sub_diag. cbn [skipn app].
  rewrite firstn_app, firstn_all, Nat.sub_diag. cbn [firstn]. apply app_nil_r.
Qed.

Ltac same_bytes := 
  autorewrite with lens; repeat rewrite <- app_assoc; reflexivity.

(** The loop walks over extensions of other types without a result. *)
Lemma sniExtensions_skips (before : list (Z * list byte)) :
  forall (pre rest sp : list byte) (fuel namesFuel : nat) (end_ : Z),
    Forall wellFormedExtension before ->
    Forall (fun x => fst x <> 0) before ->
    lenZ pre + lenZ (encExtensions before) + 4 < end_ ->
    end_ <= lenZ (pre ++ encExtensions before ++ rest) ->
    sniExtensions (length before + fuel) namesFuel
      (mkSlice (pre ++ encExtensions before ++ rest) sp) (lenZ pre) end_
    = sniExtensions fuel namesFuel
        (mkSlice (pre ++ encExtensions before ++ rest) sp)
        (lenZ pre + lenZ (encExtensions before)) end_.
Proof.
  induction before as [|x xs IH]; intros pre rest sp fuel namesFuel end_ Hwf Hty Hlt Hend.
  - cbn [length Nat.add encExtensions map concat]. 
    change (lenZ []) with 0. now rewrite Z.add_0_r.
  - inversion Hwf as [|? ? [Hx1 Hx2] Hwf']; subst.
    inversion Hty as [|? ? Hxty Hty']; subst.
    pose proof (lenZ_nonneg pre) as Hpre.
    pose proof (lenZ_nonneg (snd x)) as Hdata.
    pose proof (lenZ_nonneg (encExtensions xs)) as Hxs.
    set (b := pre ++ encExtensions (x :: xs) ++ rest) in *.
    assert (Hb : b = (pre ++ encExtension x) ++ encExtensions xs ++ rest).
    { unfold b. same_bytes. }
    rewrite encExtensions_cons, lenZ_app, lenZ_encExtension in Hlt.
    cbn [length Nat.add].
    rewrite sniExtensions_step by lia.
    assert (Htype : be16Z b (lenZ pre) = fst x).
    { apply be16Z_at with (pre := pre) (rest := u16 (lenZ (snd x)) ++ snd x ++ encExtensions xs ++ rest);
        [unfold b, encExtension; same_bytes|reflexivity|lia]. }
    assert (Hsize : be16Z b (lenZ pre + 2) = lenZ (snd x)).
    { apply be16Z_at with (pre := pre ++ u16 (fst x)) (rest := snd x ++ encExtensions xs ++ rest);
        [unfold b, encExtension; same_bytes|autorewrite with lens; reflexivity|lia]. }
    rewrite Htype, Hsize.
    destruct (Z.eqb_spec (fst x) 0) as [|_]; [contradiction|].
    replace (lenZ pre + 4 + lenZ (snd x)) with (lenZ (pre ++ encExtension x))
      by (autorewrite with lens; lia).
    replace (lenZ pre + lenZ (encExtensions (x :: xs)))
      with (lenZ (pre ++ encExtension x) + lenZ (encExtensions xs))
      by (autorewrite with lens; lia).
    rewrite Hb. apply IH; try assumption.
    + autorewrite with lens. lia.
    + rewrite <- Hb. exact Hend.
Qed.

(** At a server_name extension whose first entry has type 0 and a name
    that is not empty, the loop returns that name. *)
Lemma sniExtensions_server_name (pre rest sp name : list byte) (more : list (Z * list byte))
      (fuel namesFuel : nat) (end_ : Z) :
  let entries := (0, name) :: more in
  let b := pre ++ encExtension (serverNameExtension entries) ++ rest in
  name <> [] ->
  lenZ (encNameList entries) < 65536 ->
  lenZ pre + lenZ (encExtension (serverNameExtension entries)) <= end_ ->
  end_ <= lenZ b ->
  sniExtensions (S fuel) (S namesFuel) (mkSlice b sp) (lenZ pre) end_
  = Ret (string_of_list_byte name).
Proof.
  intros entries b Hname Hlist Hfit Hend.
  pose proof (lenZ_nonneg pre) as Hpre.
  set (tail := concat (map encName more)).
  pose proof (lenZ_nonneg tail) as Htail.
  assert (Hlen : 0 < lenZ name).
  { unfold lenZ. destruct name; [contradiction|cbn [length]; lia]. }
  set (names := concat (map encName entries)).
  assert (Hnames_eq : names = u8 0 ++ u16 (lenZ name) ++ name ++ tail).
  { unfold names, entries. cbn [map concat]. fold tail. unfold encName. cbn [fst snd].
    repeat rewrite <- app_assoc. reflexivity. }
  assert (Hnl : lenZ names = 3 + lenZ name + lenZ tail).
  { rewrite Hnames_eq. autorewrite with lens. lia. }
  assert (Hl : lenZ (encNameList entries) = 2 + lenZ names).
  { apply lenZ_encNameList. }
  unfold serverNameExtension in Hfit. rewrite lenZ_encExtension in Hfit. cbn [snd] in Hfit.
  set (L := lenZ (encNameList entries)) in *.
  assert (Hb : b = pre ++ u16 0 ++ u16 L ++ u16 (lenZ names)
                    ++ u8 0 ++ u16 (lenZ name) ++ name ++ tail ++ rest).
  { transitivity (pre ++ (u16 0 ++ u16 L ++ (u16 (lenZ names) ++ names)) ++ rest);
      [reflexivity|].
    rewrite Hnames_eq at 2. repeat rewrite <- app_assoc. reflexivity. }
  rewrite sniExtensions_step by lia.
  assert (Htype : be16Z b (lenZ pre) = 0).
  { eapply be16Z_at with (pre := pre); [exact Hb|reflexivity|lia]. }
  assert (Hnames : be16Z b (lenZ pre + 4) = lenZ names).
  { eapply be16Z_at with (pre := pre ++ u16 0 ++ u16 L);
      [rewrite Hb; repeat rewrite <- app_assoc; reflexivity
      |autorewrite with lens; lia|lia]. }
  rewrite Htype, Hnames. cbn [Z.eqb].
  destruct (Z.gtb_spec (lenZ pre + 4) (end_ - 2)); [lia|].
  destruct (Z.gtb_spec (lenZ pre + 4 + 2 + lenZ names) end_); [lia|].
  rewrite sniNames_step by lia.
  assert (Hnt : byteAtZ b (lenZ pre + 4 + 2) = 0).
  { eapply byteAtZ_at with (pre := pre ++ u16 0 ++ u16 L ++ u16 (lenZ names));
      [rewrite Hb; repeat rewrite <- app_assoc; reflexivity
      |autorewrite with lens; lia|lia]. }
  assert (Hns : be16Z b (lenZ pre + 4 + 2 + 1) = lenZ name).
  { eapply be16Z_at with (pre := pre ++ u16 0 ++ u16 L ++ u16 (lenZ names) ++ u8 0);
      [rewrite Hb; repeat rewrite <- app_assoc; reflexivity
      |autorewrite with lens; lia|lia]. }
  rewrite Hnt, Hns. cbn [Z.eqb].
  destruct (Z.gtb_spec (lenZ pre + 4 + 2 + 3 + lenZ name) end_); [lia|].
  rewrite reslice_name by lia. cbn [bind]. do 2 f_equal.
  eapply firstn_skipn_at with
    (pre := pre ++ u16 0 ++ u16 L ++ u16 (lenZ names) ++ u8 0 ++ u16 (lenZ name))
    (rest := tail ++ rest);
    [rewrite Hb; repeat rewrite <- app_assoc; reflexivity
    |autorewrite with lens; lia|reflexivity].
Qed.

(** The offsets [SNI] computes on an encoded ClientHello are those of its
    fields. *)
Lemma hello_offsets (h : ClientHello) :
  wellFormedHello h ->
  let b := encClientHello h in
  prefixFits b = true /\
  extensionsEnd b = lenZ b /\
  exists fixed, b = fixed ++ encExtensions (extensions h) /\ lenZ fixed = extensionsAt b.
Proof.
  intros (Hpre & Hsid & Hcs & Hcm & Hexts & _) b.
  set (exts := encExtensions (extensions h)) in *.
  pose proof (lenZ_nonneg (sessionId h)) as Psid.
  pose proof (lenZ_nonneg (cipherSuites h)) as Pcs.
  pose proof (lenZ_nonneg (compressionMethods h)) as Pcm.
  pose proof (lenZ_nonneg exts) as Pexts.
  assert (Lpre : lenZ (preamble h) = 38) by (unfold lenZ; lia).
  assert (Hb : b = preamble h ++ u8 (lenZ (sessionId h)) ++ sessionId h
                    ++ u16 (lenZ (cipherSuites h)) ++ cipherSuites h
                    ++ u8 (lenZ (compressionMethods h)) ++ compressionMethods h
                    ++ u16 (lenZ exts) ++ exts) by reflexivity.
  assert (Lb : lenZ b = 44 + lenZ (sessionId h) + lenZ (cipherSuites h)
                        + lenZ (compressionMethods h) + lenZ exts).
  { rewrite Hb. autorewrite with lens. lia. }
  assert (A1 : byteAtZ b 38 = lenZ (sessionId h)).
  { eapply byteAtZ_at with (pre := preamble h); [exact Hb|lia|lia]. }
  assert (O1 : cipherSuitesAt b = 39 + lenZ (sessionId h)).
  { unfold cipherSuitesAt. rewrite A1. lia. }
  assert (A2 : be16Z b (cipherSuitesAt b) = lenZ (cipherSuites h)).
  { eapply be16Z_at with (pre := preamble h ++ u8 (lenZ (sessionId h)) ++ sessionId h);
      [rewrite Hb; repeat rewrite <- app_assoc; reflexivity
      |rewrite O1; autorewrite with lens; lia|lia]. }
  assert (O2 : compressionAt b = 41 + lenZ (sessionId h) + lenZ (cipherSuites h)).
  { unfold compressionAt. rewrite A2, O1. lia. }
  assert (A3 : byteAtZ b (compressionAt b) = lenZ (compressionMethods h)).
  { eapply byteAtZ_at with
      (pre := preamble h ++ u8 (lenZ (sessionId h)) ++ sessionId h
                ++ u16 (lenZ (cipherSuites h)) ++ cipherSuites h);
      [rewrite Hb; repeat rewrite <- app_assoc; reflexivity
      |rewrite O2; autorewrite with lens; lia|lia]. }
  assert (O3 : extensionsLenAt b = 42 + lenZ (sessionId h) + lenZ (cipherSuites h)
                                   + lenZ (compressionMethods h)).
  { unfold extensionsLenAt. rewrite A3, O2. lia. }
  assert (A4 : be16Z b (extensionsLenAt b) = lenZ exts).
  { eapply be16Z_at with
      (pre := preamble h ++ u8 (lenZ (sessionId h)) ++ sessionId h
                ++ u16 (lenZ (cipherSuites h)) ++ cipherSuites h
                ++ u8 (lenZ (compressionMethods h)) ++ compressionMethods h);
      [rewrite Hb; repeat rewrite <- app_assoc; reflexivity
      |rewrite O3; autorewrite with lens; lia|lia]. }
  assert (O4 : extensionsAt b = 44 + lenZ (sessionId h) + lenZ (cipherSuites h)
                                + lenZ (compressionMethods h)).
  { unfold extensionsAt. rewrite O3. lia. }
  assert (O5 : extensionsEnd b = lenZ b).
  { unfold extensionsEnd. rewrite A4, O4, Lb. lia. }
  split; [|split; [exact O5|]].
  - unfold prefixFits. rewrite O5, O1, O2, O3.
    repeat (apply andb_true_intro; split); apply Z.leb_le; lia.
  - exists (preamble h ++ u8 (lenZ (sessionId h)) ++ sessionId h
              ++ u16 (lenZ (cipherSuites h)) ++ cipherSuites h
              ++ u8 (lenZ (compressionMethods h)) ++ compressionMethods h
              ++ u16 (lenZ exts)).
    split.
    + rewrite Hb. repeat rewrite <- app_assoc. reflexivity.
    + rewrite O4. autorewrite with lens. lia.
Qed.

(** Where the code does return the first type-0 name: on every well-formed ClientHello whose
    first server_name extension has a first entry of type 0 with a name
    that is not empty, [SNI] returns that name, whatever entries and
    extensions follow. *)
Lemma SNI_first_host_name (h : ClientHello) (before after more : list (Z * list byte))
      (name : list byte) (hdr : TLSHeader) (sp : list byte) :
  wellFormedHello h ->
  extensions h = before ++ serverNameExtension ((0, name) :: more) :: after ->
  Forall (fun x => fst x <> 0) before ->
  name <> [] ->
  SNI (mkRecord hdr (mkSlice (encClientHello h) sp)) = Ret (string_of_list_byte name).
Proof.
  intros Hwf Hexts Hother Hname.
  destruct (hello_offsets Hwf) as (Hfits & Hend & fixed & Hb & Hfixed).
  destruct Hwf as (_ & _ & _ & _ & Hsize & Hall).
  rewrite SNI_fixed_part, Hfits, Hend, <- Hfixed.
  set (b := encClientHello h) in *.
  set (ext := serverNameExtension ((0, name) :: more)) in *.
  rewrite Hexts in Hall. apply Forall_app in Hall. destruct Hall as [Hbefore Hrest].
  inversion Hrest as [|? ? [_ Hdata] _]; subst.
  assert (Hb' : b = fixed ++ encExtensions before ++ encExtension ext ++ encExtensions after).
  { rewrite Hb, Hexts, encExtensions_app, encExtensions_cons.
    repeat rewrite <- app_assoc. reflexivity. }
  pose proof (lenZ_nonneg fixed) as Pfixed.
  pose proof (lenZ_nonneg (encExtensions before)) as Pbefore.
  pose proof (lenZ_nonneg (encExtensions after)) as Pafter.
  pose proof (encExtensions_count before) as Hcount.
  assert (Hext : 4 + 2 + 3 + 1 <= lenZ (encExtension ext)).
  { unfold ext, serverNameExtension. rewrite lenZ_encExtension. cbn [snd].
    rewrite lenZ_encNameList. cbn [map concat]. autorewrite with lens. cbn [snd].
    pose proof (lenZ_nonneg (concat (map encName more))).
    assert (0 < lenZ name) by (unfold lenZ; destruct name; [contradiction|cbn [length]; lia]).
    lia. }
  assert (Lb : lenZ b = lenZ fixed + lenZ (encExtensions before) + lenZ (encExtension ext)
                        + lenZ (encExtensions after)).
  { rewrite Hb'. rewrite !lenZ_app. lia. }
  remember (Z.to_nat (lenZ b)) as total eqn:Htotal.
  assert (Hfuel : exists f nf, total = (length before + S f)%nat /\ total = S nf).
  { exists (total - length before - 1)%nat, (total - 1)%nat. lia. }
  destruct Hfuel as (f & nf & Hf & Hnf).
  rewrite Hf at 1. rewrite Hnf.
  rewrite Hb'.
  rewrite sniExtensions_skips; try assumption.
  2:{ rewrite !lenZ_app. lia. }
  2:{ lia. }
  replace (fixed ++ encExtensions before ++ encExtension ext ++ encExtensions after)
    with ((fixed ++ encExtensions before) ++ encExtension ext ++ encExtensions after)
    by (repeat rewrite <- app_assoc; reflexivity).
  rewrite <- (lenZ_app fixed (encExtensions before)).
  apply sniExtensions_server_name; try assumption.
  - rewrite !lenZ_app. fold ext. lia.
  - fold ext. apply Z.le_refl.
Qed.

Lemma SNI_first_host_name_witness :
  SNI (mkRecord (mkHeader 22 0x0303)
         (mkSlice (encClientHello
                     (sampleHello [(10, bytesOfZ [0; 2; 0; 23]);
                                   serverNameExtension [(0, bytesOfString "example.com");
                                                        (0, bytesOfString "other.test")];
                                   (11, bytesOfZ [1; 0])]))
                  (bytesOfZ [7; 7; 7])))
  = Ret "example.com"%string.
Proof.
  apply (@SNI_first_host_name _ [(10, bytesOfZ [0; 2; 0; 23])] [(11, bytesOfZ [1; 0])]
           [(0, bytesOfString "other.test")] (bytesOfString "example.com")).
  - unfold wellFormedHello, wellFormedExtension. vm_compute.
    repeat split; try reflexivity; try discriminate;
      repeat (constructor; try (split; [split; [discriminate|reflexivity]|reflexivity])).
  - reflexivity.
  - constructor; [discriminate|constructor].
  - discriminate.
Defined.

(** The round trip of the specification: one server_name extension with one
    entry for "example.com". *)
Example SNI_example_com :
  SNI (recordOf (encClientHello
                   (sampleHello [serverNameExtension [(0, bytesOfString "example.com")]])))
  = Ret "example.com"%string.
Proof. vm_compute. reflexivity. Qed.

(** Later entries and later extensions are not looked at. *)
Example SNI_ignores_what_follows :
  SNI (recordOf (encClientHello
                   (sampleHello [serverNameExtension [(0, bytesOfString "example.com");
                                                      (0, bytesOfString "second.test")];
                                 serverNameExtension [(0, bytesOfString "third.test")]])))
  = Ret "example.com"%string.
Proof. vm_compute. reflexivity. Qed.

(** C5 at its failing input.  The name list holds an entry of type 1 with
    the four-byte name "abcd" and then the type-0 entry "example.com".
    After an entry of another type the loop moves on by the three header
    bytes only, reads the entry headers out of the bytes of "abcd" and of
    what follows, finds no type 0 among them, and [SNI] returns the empty
    string. *)
Theorem SNI_skips_header_only_of_other_name_types :
  let h := sampleHello [serverNameExtension [(1, bytesOfString "abcd");
                                             (0, bytesOfString "example.com")]] in
  wellFormedHello h /\
  SNI (recordOf (encClientHello h)) = Ret EmptyString /\
  SNI (recordOf (encClientHello h)) <> Ret "example.com"%string.
Proof.
  split; [|split].
  - unfold wellFormedHello, wellFormedExtension. vm_compute.
    repeat split; try reflexivity; try discriminate.
    repeat (constructor; try (split; [split; [discriminate|reflexivity]|reflexivity])).
  - vm_compute. reflexivity.
  - vm_compute. discriminate.
Qed.

(** With a first entry of another type whose name has three bytes the loop
    is back in step after two turns and the type-0 entry is found; with
    three zero bytes as the name it returns the empty string at once. *)
Example SNI_other_type_three_bytes :
  SNI (recordOf (encClientHello
                   (sampleHello [serverNameExtension [(1, bytesOfString "abc");
                                                      (0, bytesOfString "example.com")]])))
  = Ret "example.com"%string.
Proof. vm_compute. reflexivity. Qed.

Example SNI_other_type_zero_bytes :
  SNI (recordOf (encClientHello
                   (sampleHello [serverNameExtension [(1, bytesOfZ [0; 0; 0]);
                                                      (0, bytesOfString "example.com")]])))
  = Ret EmptyString.
Proof. vm_compute. reflexivity. Qed.

(* ===================================================================== *)
(** * Patterns: the matcher finds exactly the substrings the pattern denotes *)
(* ===================================================================== *)

Local Open Scope string_scope.

Lemma append_nil_r (s : string) : s ++ "" = s.
Proof. induction s as [|c s IH]; cbn; [reflexivity|now rewrite IH]. Qed.

Lemma append_assoc (s1 s2 s3 : string) : (s1 ++ s2) ++ s3 = s1 ++ s2 ++ s3.
Proof. induction s1 as [|c s1 IH]; cbn; [reflexivity|now rewrite IH]. Qed.








Local Close Scope string_scope.

(* ===================================================================== *)
(** * [Get]: the first entry that matches *)
(* ===================================================================== *)

Lemma entryMatches_compiled (ep : EndpointEntry) (endpoint : string) :
  regex ep <> None -> entryMatches ep endpoint = Ret (entryHit ep endpoint).
Proof.
  unfold entryMatches, entryHit. destruct (regex ep); [reflexivity|contradiction].
Qed.

(** The scan answers with the first entry that matches, and with the zero
    entry and its error when none does. *)
Lemma scanEndpoints_first_match (eps : list EndpointEntry) (endpoint : string) :
  Forall (fun ep => regex ep <> None) eps ->
  (exists l1 ep l2,
      eps = l1 ++ ep :: l2 /\
      Forall (fun e => entryHit e endpoint = false) l1 /\
      entryHit ep endpoint = true /\
      scanEndpoints eps endpoint = Ret (ep, None))
  \/
  (Forall (fun e => entryHit e endpoint = false) eps /\
   scanEndpoints eps endpoint = Ret (zeroEntry, Some (notFound endpoint))).
Proof.
  induction 1 as [|ep eps Hre Hall IH].
  - right. split; [constructor|reflexivity].
  - cbn [scanEndpoints]. rewrite entryMatches_compiled by assumption. cbn [bind].
    destruct (entryHit ep endpoint) eqn:Hhit.
    + left. exists [], ep, eps. repeat split; [constructor|assumption].
    + destruct IH as [(l1 & ep' & l2 & -> & Hmiss & Hhit' & Hscan)|[Hmiss Hscan]].
      * left. exists (ep :: l1), ep', l2. repeat split; try assumption.
        constructor; assumption.
      * right. split; [constructor; assumption|assumption].
Qed.

Lemma Forall_miss_no_hit (l1 l2 : list EndpointEntry) (ep : EndpointEntry) (endpoint : string) :
  Forall (fun e => entryHit e endpoint = false) (l1 ++ ep :: l2) ->
  entryHit ep endpoint = true -> False.
Proof.
  intros H Hhit. apply Forall_app in H. destruct H as [_ H].
  inversion H; subst. congruence.
Qed.

(** The entry in front of which nothing matches is unique. *)
Lemma first_match_unique (l1 l2 l1' l2' : list EndpointEntry) (ep ep' : EndpointEntry)
      (endpoint : string) :
  l1 ++ ep :: l2 = l1' ++ ep' :: l2' ->
  Forall (fun e => entryHit e endpoint = false) l1 -> entryHit ep endpoint = true ->
  Forall (fun e => entryHit e endpoint = false) l1' -> entryHit ep' endpoint = true ->
  l1 = l1' /\ ep = ep'.
Proof.
  revert l1'. induction l1 as [|x l1 IH]; intros l1' Heq Hm Hh Hm' Hh'.
  - destruct l1' as [|y l1']; cbn in Heq.
    + injection Heq as -> _. now split.
    + injection Heq as -> _. inversion Hm'; subst. congruence.
  - destruct l1' as [|y l1']; cbn in Heq.
    + injection Heq as -> _. inversion Hm; subst. congruence.
    + injection Heq as -> Heq. inversion Hm; subst. inversion Hm'; subst.
      destruct (IH l1' Heq) as [-> ->]; try assumption. now split.
Qed.

(** C8.  On a table whose entries carry their compiled pattern, [Get]
    scans in order and stops at the first match: it returns an entry
    without error exactly when that entry is the earliest one whose
    pattern matches the name, and the zero entry with the not-found error
    exactly when no entry matches, which are its only two answers.  On the
    table [a\.com -> 10.0.0.1:443, .* -> 10.0.0.2:443] it returns the first
    entry for "a.com" and the second for "b.com"; on the empty table it
    answers not-found for every name. *)
Theorem Get_first_match (db : EndpointDB) (endpoint : string) :
  compiled db ->
  (forall ep,
      Get db endpoint = Ret (ep, None) <->
      exists l1 l2,
        endpoints db = l1 ++ ep :: l2 /\
        Forall (fun e => entryHit e endpoint = false) l1 /\
        entryHit ep endpoint = true) /\
  (Get db endpoint = Ret (zeroEntry, Some (notFound endpoint)) <->
   Forall (fun e => entryHit e endpoint = false) (endpoints db)) /\
  ((exists ep, Get db endpoint = Ret (ep, None)) \/
   Get db endpoint = Ret (zeroEntry, Some (notFound endpoint))) /\
  appendEntries [] sampleLines = Ret (endpoints sampleDB) /\
  Get sampleDB "a.com" = Ret (aComEntry, None) /\
  Get sampleDB "b.com" = Ret (catchAllEntry, None) /\
  Get (mkDB [] (file db)) endpoint = Ret (zeroEntry, Some (notFound endpoint)).
Proof.
  intros Hdb. unfold Get.
  pose proof (scanEndpoints_first_match endpoint Hdb) as Hscan.
  split; [|split; [|split; [|split; [|split; [|split]]]]].
  - intros ep. split.
    + intros Hget.
      destruct Hscan as [(l1 & ep' & l2 & Heq & Hmiss & Hhit & Hres)|[_ Hres]];
        rewrite Hres in Hget; [|discriminate].
      injection Hget as <-. exists l1, l2. auto.
    + intros (l1 & l2 & Heq & Hmiss & Hhit).
      destruct Hscan as [(l1' & ep' & l2' & Heq' & Hmiss' & Hhit' & Hres)|[Hnone _]].
      * rewrite Heq in Heq'.
        destruct (@first_match_unique l1 l2 l1' l2' ep ep' endpoint Heq' Hmiss Hhit Hmiss' Hhit')
          as [_ ->].
        exact Hres.
      * rewrite Heq in Hnone. exfalso. eapply Forall_miss_no_hit; eassumption.
  - split.
    + intros Hget.
      destruct Hscan as [(l1 & ep' & l2 & Heq & Hmiss & Hhit & Hres)|[Hnone _]];
        [rewrite Hres in Hget; discriminate|exact Hnone].
    + intros Hnone.
      destruct Hscan as [(l1 & ep' & l2 & Heq & Hmiss & Hhit & Hres)|[_ Hres]];
        [|exact Hres].
      rewrite Heq in Hnone. exfalso. eapply Forall_miss_no_hit; eassumption.
  - destruct Hscan as [(l1 & ep' & l2 & Heq & Hmiss & Hhit & Hres)|[_ Hres]].
    + left. now exists ep'.
    + now right.
  - vm_compute. reflexivity.
  - vm_compute. reflexivity.
  - vm_compute. reflexivity.
  - reflexivity.
Qed.

Lemma sampleDB_compiled : compiled sampleDB.
Proof. repeat constructor; discriminate. Qed.

Lemma Get_first_match_witness :
  Get sampleDB "a.com" = Ret (aComEntry, None) /\
  entryHit catchAllEntry "a.com" = true.
Proof.
  destruct (@Get_first_match sampleDB "a.com" sampleDB_compiled) as (Hfirst & _).
  split; [|reflexivity].
  apply Hfirst. exists [], [catchAllEntry].
  repeat split. constructor.
Defined.



(* ===================================================================== *)
(** * The peeker *)
(* ===================================================================== *)

Section PeekerFacts.

Variable bufferSpare : list byte -> list byte.

Lemma bytesRead_S (reader : Reader) (k : nat) :
  bytesRead reader (S k) = bytesRead reader k ++ data (reader k).
Proof.
  unfold bytesRead. rewrite seq_S, map_app, concat_app. cbn [map concat Nat.add].
  now rewrite app_nil_r.
Qed.

(** Whatever the loop returns, its buffer is the content it started with
    followed by the bytes of the reads it made, in order, one read a turn. *)
Lemma peekLoop_keeps_every_byte (reader : Reader) (fuel : nat) :
  forall k content tls err p,
    content = bytesRead reader k ->
    peekLoop bufferSpare fuel reader k content tls err = Ret p ->
    (k <= readsDone p <= k + fuel)%nat /\ peekedBytes p = bytesRead reader (readsDone p).
Proof.
  induction fuel as [|fuel IH]; intros k content tls err p Hcontent Hrun;
    cbn [peekLoop] in Hrun; destruct (isErr err ReadMore) eqn:Hmore.
  - discriminate.
  - destruct (SNI tls); cbn [bind] in Hrun; try discriminate.
    injection Hrun as <-. cbn. split; [lia|exact Hcontent].
  - assert (Hnext : content ++ data (reader k) = bytesRead reader (S k)).
    { rewrite bytesRead_S. now rewrite Hcontent. }
    assert (Hparse :
              (res <- parseTLSHandshake (Bytes bufferSpare (content ++ data (reader k))) ;;
               peekLoop bufferSpare fuel reader (S k) (content ++ data (reader k))
                 (fst res) (snd res)) = Ret p ->
              (k <= readsDone p <= k + S fuel)%nat /\
              peekedBytes p = bytesRead reader (readsDone p)).
    { intros Hrest.
      destruct (parseTLSHandshake (Bytes bufferSpare (content ++ data (reader k))))
        as [res| |]; cbn [bind] in Hrest; try discriminate.
      destruct (IH _ _ _ _ _ Hnext Hrest) as [Hk Hb]. split; [lia|exact Hb]. }
    destruct (readErr (reader k)) as [re|].
    + destruct (negb (errors_Is re io_EOF) || negb true).
      * injection Hrun as <-. cbn. split; [lia|exact Hnext].
      * apply Hparse, Hrun.
    + apply Hparse, Hrun.
  - destruct (SNI tls); cbn [bind] in Hrun; try discriminate.
    injection Hrun as <-. cbn. split; [lia|exact Hcontent].
Qed.

Lemma stillPeeking_bytes (reader : Reader) (k : nat) (content : list byte) :
  stillPeeking bufferSpare reader k content -> content = bytesRead reader k.
Proof.
  induction 1 as [|k content Hprev IH Heof Hparse]; [reflexivity|].
  rewrite bytesRead_S. now rewrite <- IH.
Qed.

(** With any verdict but [ReadMore] the loop is over: the name is taken
    from the record and the peek returns. *)
Lemma peekLoop_exit (reader : Reader) (fuel k : nat) (content : list byte)
      (tls : TLSRecord) (err : option error) :
  isErr err ReadMore = false ->
  exists name,
    peekLoop bufferSpare fuel reader k content tls err = Ret (mkPeeked name content err k).
Proof.
  intros Hdone. destruct (SNI_total tls) as [name Hname]. exists name.
  destruct fuel; cbn [peekLoop]; rewrite Hdone, Hname; reflexivity.
Qed.

(** What a peek comes to after at most [fuel] reads: it has returned, or
    the parser has panicked on the bytes read so far, or all [fuel] reads
    are made and the parser still asks for more. *)
Lemma peekLoop_outcomes (reader : Reader) (fuel : nat) :
  forall k content,
    stillPeeking bufferSpare reader k content ->
    (exists p, peekLoop bufferSpare fuel reader k content zeroRecord (Some ReadMore) = Ret p)
    \/
    (exists j msg,
        (k <= j < k + fuel)%nat /\
        parseTLSHandshake (Bytes bufferSpare (bytesRead reader (S j))) = Panic msg /\
        peekLoop bufferSpare fuel reader k content zeroRecord (Some ReadMore) = Panic msg)
    \/
    (peekLoop bufferSpare fuel reader k content zeroRecord (Some ReadMore) = Diverge /\
     stillPeeking bufferSpare reader (k + fuel) (bytesRead reader (k + fuel))).
Proof.
  induction fuel as [|fuel IH]; intros k content Hstill.
  - right. right. split; [reflexivity|].
    rewrite Nat.add_0_r, <- (stillPeeking_bytes Hstill). exact Hstill.
  - pose proof (stillPeeking_bytes Hstill) as Hcontent.
    assert (Hnext : content ++ data (reader k) = bytesRead reader (S k)).
    { rewrite bytesRead_S. now rewrite Hcontent. }
    cbn [peekLoop isErr errors_Is same_sentinel orb].
    assert (Hparse :
              (forall e, readErr (reader k) = Some e -> errors_Is e io_EOF = true) ->
              let o := (res <- parseTLSHandshake (Bytes bufferSpare (content ++ data (reader k))) ;;
                        peekLoop bufferSpare fuel reader (S k) (content ++ data (reader k))
                          (fst res) (snd res)) in
              (exists p, o = Ret p) \/
              (exists j msg,
                  (k <= j < k + S fuel)%nat /\
                  parseTLSHandshake (Bytes bufferSpare (bytesRead reader (S j))) = Panic msg /\
                  o = Panic msg) \/
              (o = Diverge /\
               stillPeeking bufferSpare reader (k + S fuel) (bytesRead reader (k + S fuel)))).
    { intros Heof o. subst o.
      destruct (parse_verdicts (Bytes bufferSpare (content ++ data (reader k))))
        as [[msg Hp]|[Hp|[Hp|[r Hp]]]]; rewrite Hp; cbn [bind fst snd].
      - right. left. exists k, msg. rewrite <- Hnext. split; [lia|]. split; [exact Hp|reflexivity].
      - left. destruct (@peekLoop_exit reader fuel (S k) (content ++ data (reader k))
                          zeroRecord (Some NotTLS) eq_refl) as [name Hexit].
        eexists. exact Hexit.
      - assert (Hstill' : stillPeeking bufferSpare reader (S k) (content ++ data (reader k)))
          by (now apply peeking_more).
        destruct (IH (S k) _ Hstill') as [Hret|[(j & msg & Hj & Hpanic & Hrun)|[Hdiv Hmore]]].
        + left. exact Hret.
        + right. left. exists j, msg. split; [lia|]. split; assumption.
        + right. right. replace (k + S fuel)%nat with (S k + fuel)%nat by lia.
          split; assumption.
      - left. destruct (@peekLoop_exit reader fuel (S k) (content ++ data (reader k))
                          r None eq_refl) as [name Hexit].
        eexists. exact Hexit. }
    destruct (readErr (reader k)) as [re|] eqn:Herr.
    + destruct (errors_Is re io_EOF) eqn:Heof; cbn [negb orb].
      * apply Hparse. intros e He. now injection He as <-.
      * left. eexists. reflexivity.
    + apply Hparse. intros e He. discriminate.
Qed.

(** C2.  Whenever [peekClientHello] returns, with a name, with an empty
    name, with [NotTLS] or with a read error, the buffer it returns is the
    concatenation, in order, of the bytes of all the reads it made on the
    connection, one read a turn of its loop.  And within [fuel] reads it
    does return, unless the parser panics on the bytes read so far or
    still asks for more after the last of them. *)
Theorem peek_keeps_every_byte (fuel : nat) (reader : Reader) :
  (forall p,
      peekClientHello bufferSpare fuel reader = Ret p ->
      (readsDone p <= fuel)%nat /\ peekedBytes p = bytesRead reader (readsDone p)) /\
  ((exists p, peekClientHello bufferSpare fuel reader = Ret p) \/
   (exists k msg,
       (k < fuel)%nat /\
       parseTLSHandshake (Bytes bufferSpare (bytesRead reader (S k))) = Panic msg /\
       peekClientHello bufferSpare fuel reader = Panic msg) \/
   (peekClientHello bufferSpare fuel reader = Diverge /\
    stillPeeking bufferSpare reader fuel (bytesRead reader fuel))).
Proof.
  unfold peekClientHello. split.
  - intros p Hrun.
    destruct (@peekLoop_keeps_every_byte reader fuel 0%nat [] zeroRecord (Some ReadMore) p
                eq_refl Hrun) as [Hk Hbytes].
    split; [lia|exact Hbytes].
  - destruct (@peekLoop_outcomes reader fuel 0%nat [] (peeking_start bufferSpare reader))
      as [Hret|[(j & msg & Hj & Hpanic & Hrun)|[Hdiv Hmore]]].
    + left. exact Hret.
    + right. left. exists j, msg. split; [lia|]. split; assumption.
    + right. right. split; assumption.
Qed.

(** ** A connection that ends before the record is complete *)

(** Once every read answers no bytes and [io.EOF] while the buffer holds
    an incomplete record, the loop never leaves: no amount of fuel gets
    it to a [return]. *)
Lemma peekLoop_spins (reader : Reader) (k : nat) (content : list byte) :
  (forall j, (k <= j)%nat -> reader j = mkRead [] (Some io_EOF)) ->
  parseTLSHandshake (Bytes bufferSpare content) = Ret (zeroRecord, Some ReadMore) ->
  forall fuel j tls,
    (k <= j)%nat ->
    peekLoop bufferSpare fuel reader j content tls (Some ReadMore) = Diverge.
Proof.
  intros Heof Hparse. induction fuel as [|fuel IH]; intros j tls Hj.
  - reflexivity.
  - cbn [peekLoop isErr errors_Is same_sentinel orb].
    rewrite (Heof j Hj). cbn [data readErr length Z.of_nat Z.gtb Z.compare].
    cbn [errors_Is same_sentinel orb negb]. rewrite app_nil_r, Hparse.
    cbn [bind fst snd]. apply IH. lia.
Qed.

Lemma parse_header_only :
  parseTLSHandshake (Bytes bufferSpare (bytesOfZ [22; 3; 1; 0; 10]))
  = Ret (zeroRecord, Some ReadMore).
Proof.
  apply parse_reads_more.
  - unfold cap, Bytes. cbn [elems spare]. cbn [bytesOfZ map length]. lia.
  - reflexivity.
  - reflexivity.
  - vm_compute. discriminate.
  - vm_compute. reflexivity.
Qed.

(** C4 at its failing input.  The client sends the five header bytes of
    a ten-byte record and closes its side.  [io.EOF] is not taken for a
    failure, the parser keeps answering [ReadMore], and the loop reads
    again: whatever the fuel, the peeker has not returned. *)
Theorem peek_never_returns_after_eof (fuel : nat) :
  peekClientHello bufferSpare fuel closedAfterHeader = Diverge.
Proof.
  unfold peekClientHello. destruct fuel as [|fuel]; [reflexivity|].
  cbn [peekLoop isErr errors_Is same_sentinel orb].
  cbn [closedAfterHeader data readErr]. cbn [app].
  rewrite parse_header_only. cbn [bind fst snd].
  apply peekLoop_spins with (k := 1%nat).
  - intros j Hj. destruct j; [lia|reflexivity].
  - apply parse_header_only.
  - apply le_n.
Qed.

(** ** A read that fails *)

Lemma peek_reaches (reader : Reader) (k : nat) (content : list byte) :
  stillPeeking bufferSpare reader k content ->
  forall fuel,
    peekClientHello bufferSpare (k + fuel) reader
    = peekLoop bufferSpare fuel reader k content zeroRecord (Some ReadMore).
Proof.
  unfold peekClientHello.
  induction 1 as [|k content Hprev IH Heof Hparse]; intros fuel.
  - reflexivity.
  - replace (S k + fuel)%nat with (k + S fuel)%nat by lia. rewrite IH.
    cbn [peekLoop isErr errors_Is same_sentinel orb].
    destruct (readErr (reader k)) as [re|].
    + rewrite (Heof re eq_refl). cbn [negb orb]. rewrite Hparse. reflexivity.
    + rewrite Hparse. reflexivity.
Qed.

(** The peeker hands a failed read back as its error, wrapped, with all
    the bytes read so far. *)
Lemma peek_surfaces_read_error (reader : Reader) (k : nat) (content : list byte)
      (e : error) (fuel : nat) :
  stillPeeking bufferSpare reader k content ->
  readErr (reader k) = Some e ->
  errors_Is e io_EOF = false ->
  (k < fuel)%nat ->
  peekClientHello bufferSpare fuel reader
  = Ret (mkPeeked EmptyString (bytesRead reader (S k))
           (Some (wrapError "failed to read from connection" e)) (S k)).
Proof.
  intros Hstill Herr Heof Hfuel.
  replace fuel with (k + S (fuel - k - 1))%nat by lia.
  rewrite (peek_reaches Hstill).
  cbn [peekLoop isErr errors_Is same_sentinel orb].
  rewrite Herr, Heof. cbn [negb orb].
  rewrite bytesRead_S, <- (stillPeeking_bytes Hstill). reflexivity.
Qed.

End PeekerFacts.

(** The four ways a peek returns, each with every byte read in its buffer. *)
Lemma peek_keeps_every_byte_witness :
  let reader := inChunks [firstn 7 helloRecord; skipn 7 helloRecord] in
  (2 <= 5)%nat /\
  peekedBytes (mkPeeked "example.com" helloRecord None 2) = bytesRead reader 2.
Proof.
  intros reader.
  destruct (@peek_keeps_every_byte noSpare 5 reader) as [Hkeeps _].
  apply (Hkeeps (mkPeeked "example.com" helloRecord None 2)).
  vm_compute. reflexivity.
Defined.

Example peek_name_found :
  peekClientHello smallBufferSpare 5 (inChunks [firstn 7 helloRecord; skipn 7 helloRecord])
  = Ret (mkPeeked "example.com" helloRecord None 2).
Proof. vm_compute. reflexivity. Qed.

Example peek_no_name :
  peekClientHello noSpare 5 (always (mkRead (bytesOfZ [22; 3; 1; 0; 1; 7]) None))
  = Ret (mkPeeked EmptyString (bytesOfZ [22; 3; 1; 0; 1; 7]) None 1).
Proof. vm_compute. reflexivity. Qed.

Example peek_not_tls :
  peekClientHello noSpare 5 (always (mkRead (bytesOfString "HELLO") None))
  = Ret (mkPeeked EmptyString (bytesOfString "HELLO") (Some NotTLS) 1).
Proof. vm_compute. reflexivity. Qed.

Example peek_read_error :
  peekClientHello noSpare 5
    (fun k => match k with
              | O => mkRead (bytesOfZ [22; 3; 1; 0; 10]) None
              | S _ => mkRead (bytesOfZ [1; 2]) (Some (errorString "connection reset by peer"))
              end)
  = Ret (mkPeeked EmptyString (bytesOfZ [22; 3; 1; 0; 10; 1; 2])
           (Some (wrapError "failed to read from connection"
                    (errorString "connection reset by peer"))) 2).
Proof. vm_compute. reflexivity. Qed.

(** A connection that is closed before it sent a byte: the parser is
    called on the empty buffer and panics. *)
Example peek_closed_at_once :
  peekClientHello smallBufferSpare 5 (always (mkRead [] (Some io_EOF)))
  = Panic "index out of range".
Proof. vm_compute. reflexivity. Qed.

(** A first chunk of two bytes in a buffer with zeroed spare capacity: the
    version is read as 0x0300 and the handshake is taken for no TLS. *)
Example peek_two_byte_chunk :
  peekClientHello smallBufferSpare 5 (inChunks [firstn 2 helloRecord; skipn 2 helloRecord])
  = Ret (mkPeeked EmptyString (firstn 2 helloRecord) (Some NotTLS) 1).
Proof. vm_compute. reflexivity. Qed.

(* ===================================================================== *)
(** * The handler *)
(* ===================================================================== *)

Lemma scanEndpoints_returns (eps : list EndpointEntry) (endpoint : string) :
  Forall (fun ep => regex ep <> None) eps ->
  exists got, scanEndpoints eps endpoint = Ret got.
Proof.
  induction 1 as [|ep eps Hre _ IH].
  - eexists. reflexivity.
  - cbn [scanEndpoints]. unfold entryMatches.
    destruct (regex ep) as [re|]; [|contradiction]. cbn [bind].
    destruct (MatchString re endpoint); [eexists; reflexivity|exact IH].
Qed.

Lemma Get_returns (db : EndpointDB) (endpoint : string) :
  compiled db -> exists got, Get db endpoint = Ret got.
Proof. apply scanEndpoints_returns. Qed.

Lemma lookups_app (t1 t2 : list event) : lookups (t1 ++ t2) = lookups t1 ++ lookups t2.
Proof.
  induction t1 as [|ev t1 IH]; [reflexivity|].
  destruct ev; cbn [app lookups]; rewrite IH; reflexivity.
Qed.

Section HandlerFacts.

Variable bufferSpare : list byte -> list byte.
Variable dial : string -> option error.

(** Once the deadline is cleared, the table is asked for the name. *)
Lemma routeAndRelay_looks_up (db : EndpointDB) (conn : Conn) (trace : list event)
      (domainName : string) (replayed : option (list byte)) :
  clearDeadline conn = None -> compiled db -> lookups trace = [] ->
  decisionOf (routeAndRelay dial db conn trace domainName replayed) = Routed domainName.
Proof.
  intros Hclear Hdb Htrace. unfold routeAndRelay. rewrite Hclear.
  destruct (Get_returns domainName Hdb) as [got Hgot]. rewrite Hgot. cbn [bind].
  destruct (snd got); [|destruct (dial (Address (fst got)))];
    cbn [decisionOf]; rewrite !lookups_app, Htrace; reflexivity.
Qed.

(** C6, as amended.  While the peeker is still asking for more, a read
    that fails with an error that is
    neither [io.EOF] nor [NotTLS], nor wraps one of them, makes the
    peeker return that error, wrapped, with every byte read so far, and
    makes [HandleConnection] return an error without a call of [Get]. *)
Theorem read_failure_aborts_without_lookup (fuel : nat) (db : EndpointDB) (conn : Conn)
        (k : nat) (content : list byte) (e : error) :
  stillPeeking bufferSpare (reads conn) k content ->
  readErr (reads conn k) = Some e ->
  errors_Is e io_EOF = false ->
  errors_Is e NotTLS = false ->
  (k < fuel)%nat ->
  peekClientHello bufferSpare fuel (reads conn)
    = Ret (mkPeeked EmptyString (bytesRead (reads conn) (S k))
             (Some (wrapError "failed to read from connection" e)) (S k)) /\
  exists trace err,
    HandleConnection bufferSpare dial fuel db conn = Ret (trace, Some err) /\
    lookups trace = [].
Proof.
  intros Hstill Herr Heof Hnot Hfuel.
  pose proof (peek_surfaces_read_error Hstill Herr Heof Hfuel) as Hpeek.
  split; [exact Hpeek|].
  unfold HandleConnection. destruct (setDeadline conn) as [de|].
  - eexists. eexists. split; reflexivity.
  - rewrite Hpeek. cbn [bind peekErr readsDone errors_Is same_sentinel orb].
    rewrite Hnot. eexists. eexists. split; reflexivity.
Qed.

End HandlerFacts.

Lemma read_failure_aborts_without_lookup_witness :
  let conn := connOf (fun k => match k with
                               | O => mkRead (bytesOfZ [22; 3; 1; 0; 10]) None
                               | S _ => mkRead (bytesOfZ [1; 2]) (Some (errorString "i/o timeout"))
                               end) in
  peekClientHello smallBufferSpare 3 (reads conn)
    = Ret (mkPeeked EmptyString (bytesOfZ [22; 3; 1; 0; 10; 1; 2])
             (Some (wrapError "failed to read from connection" (errorString "i/o timeout"))) 2) /\
  exists trace err,
    HandleConnection smallBufferSpare dialOk 3 emptyDB conn = Ret (trace, Some err) /\
    lookups trace = [].
Proof.
  intros conn.
  apply (@read_failure_aborts_without_lookup smallBufferSpare dialOk 3 emptyDB conn 1
           (bytesOfZ [22; 3; 1; 0; 10]) (errorString "i/o timeout")).
  - apply (@peeking_more smallBufferSpare (reads conn) 0 []).
    + apply peeking_start.
    + intros e He. vm_compute in He. discriminate.
    + vm_compute. reflexivity.
  - reflexivity.
  - reflexivity.
  - reflexivity.
  - lia.
Defined.

(** C6, as stated, fails: a read that fails with the [NotTLS] value itself
    is no end of stream, the peeker returns it wrapped, and the handler,
    which asks [errors.Is(err, NotTLS)], takes it for the parser's verdict
    and looks up "*". *)
Lemma read_failure_NotTLS_is_routed_counterexample :
  let conn := connOf (always (mkRead [] (Some NotTLS))) in
  readErr (reads conn 0%nat) = Some NotTLS /\
  errors_Is NotTLS io_EOF = false /\
  peekClientHello noSpare 1 (reads conn)
    = Ret (mkPeeked EmptyString []
             (Some (wrapError "failed to read from connection" NotTLS)) 1) /\
  exists trace err,
    HandleConnection noSpare dialOk 1 emptyDB conn = Ret (trace, err) /\
    lookups trace = ["*"%string].
Proof.
  vm_compute. repeat split. eexists. eexists. split; reflexivity.
Qed.

(* ===================================================================== *)
(** * The two versions of the handler *)
(* ===================================================================== *)

Section TwoHandlers.

Variable bufferSpare : list byte -> list byte.
Variable dial : string -> option error.
Variable handshake : Reader -> handshakeResult.

(** What the version with the mock handshake decides, whatever
    [crypto/tls] does: it never returns before the lookup. *)
Lemma HandleConnectionTLS_decision (db : EndpointDB) (conn : Conn) :
  setDeadline conn = None -> clearDeadline conn = None -> compiled db ->
  decisionOf (HandleConnectionTLS dial handshake db conn) =
    match hello (handshake (reads conn)), handshakeErr (handshake (reads conn)) with
    | Some info, _ => Routed (ServerName info)
    | None, Some _ => Routed "*"
    | None, None => Crashed
    end.
Proof.
  intros Hset Hclear Hdb. unfold HandleConnectionTLS, peekClientHelloTLS. rewrite Hset.
  destruct (hello (handshake (reads conn))) as [info|].
  - now apply routeAndRelay_looks_up.
  - destruct (handshakeErr (handshake (reads conn))) as [err|].
    + now apply routeAndRelay_looks_up.
    + reflexivity.
Qed.

(** What the version with the record parser decides. *)
Lemma HandleConnection_decision (fuel : nat) (db : EndpointDB) (conn : Conn) :
  setDeadline conn = None -> clearDeadline conn = None -> compiled db ->
  decisionOf (HandleConnection bufferSpare dial fuel db conn) =
    match peekClientHello bufferSpare fuel (reads conn) with
    | Ret p =>
        match peekErr p with
        | None => Routed (sni p)
        | Some err => if errors_Is err NotTLS then Routed "*" else Aborted
        end
    | _ => Crashed
    end.
Proof.
  intros Hset Hclear Hdb. unfold HandleConnection. rewrite Hset.
  destruct (peekClientHello bufferSpare fuel (reads conn)) as [p| |]; cbn [bind];
    try reflexivity.
  destruct (peekErr p) as [err|].
  - destruct (errors_Is err NotTLS).
    + now apply routeAndRelay_looks_up.
    + cbn [decisionOf]. rewrite lookups_app. reflexivity.
  - now apply routeAndRelay_looks_up.
Qed.

(** C9, as amended.  On a connection whose deadline calls succeed and a
    table whose entries are compiled, the version with the mock
    handshake always reaches the lookup: with the server name of the
    hello if the callback saw one, with "*" on any handshake error
    without a hello (and it dereferences a nil hello if there is
    neither).  The version with the record parser looks up the name on
    success and "*" on [NotTLS], and returns without a lookup on every
    other error of the peek.  So the second aborts where the first
    routes to "*". *)
Theorem handlers_decide_differently (fuel : nat) (db : EndpointDB) (conn : Conn) :
  setDeadline conn = None -> clearDeadline conn = None -> compiled db ->
  decisionOf (HandleConnectionTLS dial handshake db conn) <> Aborted /\
  decisionOf (HandleConnectionTLS dial handshake db conn) =
    match hello (handshake (reads conn)), handshakeErr (handshake (reads conn)) with
    | Some info, _ => Routed (ServerName info)
    | None, Some _ => Routed "*"
    | None, None => Crashed
    end /\
  decisionOf (HandleConnection bufferSpare dial fuel db conn) =
    match peekClientHello bufferSpare fuel (reads conn) with
    | Ret p =>
        match peekErr p with
        | None => Routed (sni p)
        | Some err => if errors_Is err NotTLS then Routed "*" else Aborted
        end
    | _ => Crashed
    end /\
  (forall p err,
      peekClientHello bufferSpare fuel (reads conn) = Ret p ->
      peekErr p = Some err -> errors_Is err NotTLS = false ->
      decisionOf (HandleConnection bufferSpare dial fuel db conn) = Aborted).
Proof.
  intros Hset Hclear Hdb.
  pose proof (@HandleConnectionTLS_decision db conn Hset Hclear Hdb) as Htls.
  pose proof (@HandleConnection_decision fuel db conn Hset Hclear Hdb) as Hraw.
  split; [|split; [exact Htls|split; [exact Hraw|]]].
  - rewrite Htls. destruct (hello (handshake (reads conn)));
      [|destruct (handshakeErr (handshake (reads conn)))]; discriminate.
  - intros p err Hp Herr Hnot. rewrite Hraw, Hp, Herr, Hnot. reflexivity.
Qed.

End TwoHandlers.

Lemma emptyDB_compiled : compiled emptyDB.
Proof. constructor. Qed.

Lemma handlers_decide_differently_witness :
  decisionOf (HandleConnectionTLS dialOk
                (fun _ => mkHandshake None [] (Some (errorString "i/o timeout")) 1)
                emptyDB timedOut) = Routed "*" /\
  decisionOf (HandleConnection noSpare dialOk 1 emptyDB timedOut) = Aborted.
Proof.
  destruct (@handlers_decide_differently noSpare dialOk
              (fun _ => mkHandshake None [] (Some (errorString "i/o timeout")) 1)
              1 emptyDB timedOut eq_refl eq_refl emptyDB_compiled)
    as (_ & Htls & _ & Hraw).
  split; [exact Htls|].
  apply (Hraw (mkPeeked EmptyString []
                 (Some (wrapError "failed to read from connection"
                          (errorString "i/o timeout"))) 1)
              (wrapError "failed to read from connection" (errorString "i/o timeout")));
    reflexivity.
Defined.

(** C9, as stated, fails, whatever the handshake of [crypto/tls] does: on
    a connection whose first read times out the version with the record
    parser returns without a lookup, which the version with the mock
    handshake never does. *)
Lemma handlers_not_equivalent_counterexample :
  ~ (exists handshake : Reader -> handshakeResult,
        forall conn : Conn,
          decisionOf (HandleConnectionTLS dialOk handshake emptyDB conn)
          = decisionOf (HandleConnection noSpare dialOk 1 emptyDB conn)).
Proof.
  intros [handshake Hsame]. specialize (Hsame timedOut).
  rewrite (@HandleConnectionTLS_decision dialOk handshake emptyDB timedOut
             eq_refl eq_refl emptyDB_compiled) in Hsame.
  change (decisionOf (HandleConnection noSpare dialOk 1 emptyDB timedOut)) with Aborted in Hsame.
  destruct (hello (handshake (reads timedOut)));
    [|destruct (handshakeErr (handshake (reads timedOut)))]; discriminate.
Qed.

(* ===================================================================== *)
(** * Loading the table *)
(* ===================================================================== *)

Local Open Scope string_scope.

Lemma length_append (a b : string) :
  String.length (a ++ b) = (String.length a + String.length b)%nat.
Proof. induction a as [|c a IH]; cbn; [reflexivity|now rewrite IH]. Qed.

Lemma substring_all (s : string) : substring 0 (String.length s) s = s.
Proof. induction s as [|c s IH]; cbn; [reflexivity|now rewrite IH]. Qed.

Lemma substring_front (a b : string) : substring 0 (String.length a) (a ++ b) = a.
Proof.
  induction a as [|c a IH]; cbn.
  - destruct b; reflexivity.
  - now rewrite IH.
Qed.

Lemma substring_back (a b : string) (n : nat) :
  n = String.length a -> substring n (String.length b) (a ++ b) = b.
Proof.
  intros ->. induction a as [|c a IH]; cbn; [apply substring_all|exact IH].
Qed.

(** The last occurrence lies behind every other one. *)
Lemma lastIndexOf_app (c : ascii) (a b : string) :
  lastIndexOf c (a ++ String c b)
  = Some (String.length a + match lastIndexOf c b with Some j => S j | None => 0 end)%nat.
Proof.
  induction a as [|d a IH]; cbn.
  - destruct (lastIndexOf c b); [reflexivity|]. now rewrite Ascii.eqb_refl.
  - now rewrite IH.
Qed.

Lemma lastIndexOf_found (c : ascii) (s : string) (i : nat) :
  lastIndexOf c s = Some i ->
  exists a b, s = a ++ String c b /\ String.length a = i /\ lastIndexOf c b = None.
Proof.
  revert i. induction s as [|d s IH]; cbn; intros i H; [discriminate|].
  destruct (lastIndexOf c s) as [j|] eqn:Hs.
  - injection H as <-. destruct (IH j eq_refl) as (a & b & -> & <- & Hb).
    exists (String d a), b. repeat split. exact Hb.
  - destruct (Ascii.eqb_spec d c) as [->|Hne]; [|discriminate].
    injection H as <-. exists "", s. repeat split. exact Hs.
Qed.

Lemma lastIndexOf_absent (c : ascii) (s : string) :
  lastIndexOf c s = None <-> ~ (exists a b, s = a ++ String c b).
Proof.
  split.
  - intros H (a & b & ->). rewrite lastIndexOf_app in H. discriminate.
  - intros H. destruct (lastIndexOf c s) as [i|] eqn:Hs; [|reflexivity].
    exfalso. apply H. destruct (lastIndexOf_found _ _ Hs) as (a & b & -> & _).
    now exists a, b.
Qed.

Lemma hasComma_lastIndex (s : string) : hasComma s <-> lastIndexOf "," s <> None.
Proof.
  unfold hasComma. split.
  - intros (a & b & ->). change (a ++ "," ++ b) with (a ++ String "," b).
    rewrite lastIndexOf_app. discriminate.
  - intros H. destruct (lastIndexOf "," s) as [i|] eqn:Hs; [|contradiction].
    destruct (lastIndexOf_found _ _ Hs) as (a & b & -> & _). now exists a, b.
Qed.

(** Cutting the line [domain,address] at its last comma. *)
Lemma splitLine_at_last_comma (domain address : string) :
  lastIndexOf "," address = None ->
  splitLine (domain ++ "," ++ address) = Some (domain, address).
Proof.
  intros Hno. unfold splitLine, LastIndex.
  change (domain ++ "," ++ address) with (domain ++ String "," address).
  rewrite lastIndexOf_app, Hno, Nat.add_0_r.
  destruct (Z.eqb_spec (Z.of_nat (String.length domain)) (-1)) as [H|_]; [lia|].
  unfold sliceString. f_equal. f_equal.
  - rewrite Z.sub_0_r, Nat2Z.id. apply substring_front.
  - rewrite length_append. cbn [String.length].
    replace (Z.to_nat (Z.of_nat (String.length domain) + 1))
      with (String.length (domain ++ ",")) by (rewrite length_append; cbn; lia).
    replace (Z.to_nat (Z.of_nat (String.length domain + S (String.length address))
                       - (Z.of_nat (String.length domain) + 1)))
      with (String.length address) by lia.
    change (domain ++ String "," address) with (domain ++ "," ++ address).
    rewrite <- append_assoc. now apply substring_back.
Qed.

(** X1.  [readFile] cuts a line at its last comma.  A line is skipped
    exactly when it holds no comma; otherwise the two parts put together
    with a comma give the line back and the second part holds no comma; and
    a line written as [domain,address] with no comma in the address is cut
    into that domain and that address, whatever commas the domain holds. *)
Theorem splitLine_last_comma (line : string) :
  (splitLine line = None <-> ~ hasComma line) /\
  (forall domain address,
      splitLine line = Some (domain, address) ->
      line = domain ++ "," ++ address /\ ~ hasComma address) /\
  (forall domain address,
      line = domain ++ "," ++ address -> ~ hasComma address ->
      splitLine line = Some (domain, address)).
Proof.
  split; [|split].
  - rewrite hasComma_lastIndex. unfold splitLine, LastIndex.
    destruct (lastIndexOf "," line) as [i|]; cbn [Z.eqb].
    + destruct (Z.eqb_spec (Z.of_nat i) (-1)) as [H|_]; [lia|].
      split; [discriminate|]. intros H. exfalso. apply H. discriminate.
    + split; [intros _ H; now apply H|reflexivity].
  - intros domain address Hsplit.
    destruct (lastIndexOf "," line) as [i|] eqn:Hlast.
    + destruct (lastIndexOf_found _ _ Hlast) as (a & b & -> & _ & Hb).
      change (a ++ String "," b) with (a ++ "," ++ b) in Hsplit.
      rewrite (splitLine_at_last_comma a b Hb) in Hsplit.
      injection Hsplit as <- <-. split; [reflexivity|].
      rewrite hasComma_lastIndex. intros H. now apply H.
    + unfold splitLine, LastIndex in Hsplit. rewrite Hlast in Hsplit. discriminate.
  - intros domain address -> Hno. apply splitLine_at_last_comma.
    destruct (lastIndexOf "," address) eqn:H; [|reflexivity].
    exfalso. apply Hno. apply hasComma_lastIndex. rewrite H. discriminate.
Qed.

Lemma splitLine_last_comma_witness :
  splitLine "a{2,3}\.com,10.0.0.1:443" = Some ("a{2,3}\.com", "10.0.0.1:443").
Proof.
  destruct (splitLine_last_comma "a{2,3}\.com,10.0.0.1:443") as (_ & _ & Hcut).
  apply Hcut; [reflexivity|].
  intros (a & b & H). 
  assert (Hlast : lastIndexOf "," "10.0.0.1:443" <> None)
    by (rewrite H; change (a ++ "," ++ b) with (a ++ String "," b);
        rewrite lastIndexOf_app; discriminate).
  apply Hlast. reflexivity.
Defined.

Local Close Scope string_scope.

Lemma scanLines_appendEntries (lines : list string) :
  forall eps, scanLines eps lines = appendEntries eps (splitLines lines).
Proof.
  induction lines as [|line rest IH]; intros eps; cbn [scanLines splitLines].
  - reflexivity.
  - destruct (splitLine line) as [[domain address]|]; [|apply IH].
    cbn [appendEntries]. destruct (newEntry domain address); cbn [bind]; [apply IH| |];
      reflexivity.
Qed.

Lemma newEntry_Ret (domain address : string) (ep : EndpointEntry) :
  newEntry domain address = Ret ep ->
  rule ep = (domain, address) /\ builtEntry ep.
Proof.
  unfold newEntry, MustCompile, builtEntry.
  destruct (Compile domain) as [re|] eqn:Hre; cbn [bind]; [|discriminate].
  intros H. injection H as <-. unfold rule. cbn [regex Domain Address].
  rewrite Hre. repeat split. discriminate.
Qed.

Lemma appendEntries_Ret (rules : list (string * string)) :
  forall eps eps',
    appendEntries eps rules = Ret eps' ->
    exists new, eps' = eps ++ new /\ map rule new = rules /\ Forall builtEntry new.
Proof.
  induction rules as [|[domain address] rest IH]; intros eps eps' H; cbn [appendEntries] in H.
  - injection H as <-. exists []. rewrite app_nil_r. repeat split. constructor.
  - destruct (newEntry domain address) as [ep| |] eqn:Hep; cbn [bind] in H; try discriminate.
    destruct (newEntry_Ret _ _ Hep) as [Hrule Hbuilt].
    destruct (IH _ _ H) as (new & -> & Hmap & Hall).
    exists (ep :: new). rewrite <- app_assoc. cbn [app map]. rewrite Hrule, Hmap.
    repeat split. now constructor.
Qed.

Lemma appendEntries_returns (rules : list (string * string)) :
  Forall (fun r => Compile (fst r) <> None) rules ->
  forall eps, exists eps', appendEntries eps rules = Ret eps'.
Proof.
  induction 1 as [|[domain address] rest Hre _ IH]; intros eps; cbn [appendEntries].
  - now exists eps.
  - unfold newEntry, MustCompile. cbn [fst] in Hre.
    destruct (Compile domain) as [re|]; [|contradiction]. cbn [bind]. apply IH.
Qed.

Lemma builtEntry_compiled (eps : list EndpointEntry) :
  Forall builtEntry eps -> Forall (fun ep => regex ep <> None) eps.
Proof. apply Forall_impl. intros ep [_ H]. exact H. Qed.

(** What a load that returns has built. *)
Lemma NewEndpointsDB_Ret (fs : string -> option (list string)) (fileName : string)
      (db : EndpointDB) :
  NewEndpointsDB fs fileName = Ret db ->
  file db = fileName /\
  map rule (endpoints db) = match fs fileName with
                            | Some lines => splitLines lines
                            | None => []
                            end /\
  Forall builtEntry (endpoints db).
Proof.
  unfold NewEndpointsDB, readFile. destruct (fs fileName) as [lines|].
  - cbn [endpoints file]. rewrite scanLines_appendEntries.
    destruct (appendEntries [] (splitLines lines)) as [eps| |] eqn:Happ; cbn [bind];
      try discriminate.
    intros H. injection H as <-. cbn [endpoints file].
    destruct (appendEntries_Ret _ _ Happ) as (new & -> & Hmap & Hall).
    cbn [app]. repeat split; assumption.
  - intros H. injection H as <-. cbn. repeat split. constructor.
Qed.

(** X2.  The table [NewEndpointsDB] returns holds one entry for each line
    of the file that holds a comma, in the order of the file, with the
    two parts of the line as its domain and address and the compiled
    domain as its pattern, which is never nil; it is empty when the file
    cannot be opened.  The load returns whenever every domain compiles. *)
Theorem NewEndpointsDB_builds_table (fs : string -> option (list string)) (fileName : string) :
  (forall db,
      NewEndpointsDB fs fileName = Ret db ->
      file db = fileName /\
      map rule (endpoints db) = match fs fileName with
                                | Some lines => splitLines lines
                                | None => []
                                end /\
      Forall builtEntry (endpoints db) /\
      compiled db) /\
  (fs fileName = None -> NewEndpointsDB fs fileName = Ret (mkDB [] fileName)) /\
  (forall lines,
      fs fileName = Some lines ->
      Forall (fun r => Compile (fst r) <> None) (splitLines lines) ->
      exists db, NewEndpointsDB fs fileName = Ret db).
Proof.
  split; [|split].
  - intros db Hload. destruct (NewEndpointsDB_Ret _ _ Hload) as (Hfile & Hrules & Hbuilt).
    repeat split; try assumption. now apply builtEntry_compiled.
  - intros Hnone. unfold NewEndpointsDB, readFile. now rewrite Hnone.
  - intros lines Hsome Hall. unfold NewEndpointsDB, readFile. rewrite Hsome.
    cbn [endpoints file]. rewrite scanLines_appendEntries.
    destruct (appendEntries_returns Hall []) as [eps ->]. cbn [bind]. eexists. reflexivity.
Qed.

Lemma NewEndpointsDB_builds_table_witness :
  map rule (endpoints sampleDB) = [("a\.com", "10.0.0.1:443"); (".*", "10.0.0.2:443")]%string /\
  compiled sampleDB.
Proof.
  destruct (NewEndpointsDB_builds_table sampleFile "endpoints.txt") as (Hbuilt & _).
  destruct (Hbuilt sampleDB) as (_ & Hrules & _ & Hcompiled).
  - vm_compute. reflexivity.
  - split; [exact Hrules|exact Hcompiled].
Defined.

(** The scan walks over the entries that miss and stops at the first hit. *)
Lemma scanEndpoints_hit (l1 l2 : list EndpointEntry) (ep : EndpointEntry) (endpoint : string) :
  Forall (fun e => regex e <> None /\ entryHit e endpoint = false) l1 ->
  regex ep <> None -> entryHit ep endpoint = true ->
  scanEndpoints (l1 ++ ep :: l2) endpoint = Ret (ep, None).
Proof.
  intros Hmiss Hre Hhit. induction Hmiss as [|e l1 [He Hno] _ IH]; cbn [app scanEndpoints].
  - rewrite entryMatches_compiled by assumption. now rewrite Hhit.
  - rewrite entryMatches_compiled by assumption. rewrite Hno. exact IH.
Qed.

(** X3.  Load, then look up: when the file is read into a table, [Get]
    answers a name with the rule of the first line, among those that hold
    a comma, whose compiled domain finds a match in the name. *)
Theorem loaded_table_first_line_wins (fs : string -> option (list string)) (fileName : string)
        (db : EndpointDB) (lines : list string) (before after : list (string * string))
        (domain address endpoint : string) (re : Regexp) :
  NewEndpointsDB fs fileName = Ret db ->
  fs fileName = Some lines ->
  splitLines lines = before ++ (domain, address) :: after ->
  Compile domain = Some re ->
  MatchString re endpoint = true ->
  (forall d a re', In (d, a) before -> Compile d = Some re' -> MatchString re' endpoint = false) ->
  Get db endpoint = Ret (mkEntry domain address (Some re), None).
Proof.
  intros Hload Hfs Hsplit Hre Hhit Hmiss.
  destruct (NewEndpointsDB_Ret _ _ Hload) as (_ & Hrules & Hbuilt).
  rewrite Hfs, Hsplit in Hrules.
  apply map_eq_app in Hrules. destruct Hrules as (l1 & rest & Heps & Hl1 & Hrest).
  destruct rest as [|ep l2]; [discriminate|].
  rewrite Heps in Hbuilt. apply Forall_app in Hbuilt. destruct Hbuilt as [Hb1 Hb2].
  apply Forall_inv in Hb2. destruct Hb2 as [Hepre _].
  cbn [map] in Hrest. unfold rule at 1 in Hrest. injection Hrest as Hd Ha _.
  assert (Hentry : ep = mkEntry domain address (Some re)).
  { destruct ep as [d a r]. cbn [Domain Address regex] in Hd, Ha, Hepre.
    rewrite Hd, Hre in Hepre. now rewrite Hd, Ha, Hepre. }
  unfold Get. rewrite Heps, Hentry. apply scanEndpoints_hit.
  - rewrite Forall_forall. intros e Hin. rewrite Forall_forall in Hb1.
    destruct (Hb1 e Hin) as [Hc Hnn]. split; [exact Hnn|].
    unfold entryHit. destruct (regex e) as [re'|] eqn:He; [|reflexivity].
    apply (Hmiss (Domain e) (Address e) re'); [|now rewrite <- Hc].
    apply (in_map rule) in Hin. rewrite Hl1 in Hin. exact Hin.
  - discriminate.
  - exact Hhit.
Qed.

Lemma loaded_table_first_line_wins_witness :
  Get sampleDB "b.com" = Ret (mkEntry ".*" "10.0.0.2:443" (Some (patternOf ".*")), None).
Proof.
  apply (@loaded_table_first_line_wins sampleFile "endpoints.txt" sampleDB
           ["a\.com,10.0.0.1:443"; ""; "# no rule here"; ".*,10.0.0.2:443"]%string
           [("a\.com", "10.0.0.1:443")]%string [] ".*" "10.0.0.2:443" "b.com" (patternOf ".*")).
  - vm_compute. reflexivity.
  - reflexivity.
  - vm_compute. reflexivity.
  - reflexivity.
  - reflexivity.
  - intros d a re' [Hin|[]] Hc. injection Hin as <- <-.
    vm_compute in Hc. injection Hc as <-. reflexivity.
Defined.

(* ===================================================================== *)
(** * [SNI] without a server name, and on a body cut short *)
(* ===================================================================== *)

(** The loop runs through extensions of other types to the end of the
    block and returns the empty string. *)
Lemma sniExtensions_no_server_name (exts : list (Z * list byte)) :
  forall (pre sp : list byte) (fuel namesFuel : nat),
    Forall wellFormedExtension exts ->
    Forall (fun x => fst x <> 0) exts ->
    (length exts <= fuel)%nat ->
    sniExtensions fuel namesFuel (mkSlice (pre ++ encExtensions exts) sp)
      (lenZ pre) (lenZ (pre ++ encExtensions exts))
    = Ret EmptyString.
Proof.
  induction exts as [|x xs IH]; intros pre sp fuel namesFuel Hwf Hty Hfuel.
  - apply sniExtensions_done. cbn [encExtensions map concat]. rewrite app_nil_r. lia.
  - inversion Hwf as [|? ? [Hx1 Hx2] Hwf']; subst.
    inversion Hty as [|? ? Hxty Hty']; subst.
    pose proof (lenZ_nonneg pre) as Hpre.
    pose proof (lenZ_nonneg (snd x)) as Hdata.
    pose proof (lenZ_nonneg (encExtensions xs)) as Hxs.
    set (b := pre ++ encExtensions (x :: xs)) in *.
    assert (Hb : b = (pre ++ encExtension x) ++ encExtensions xs).
    { unfold b. rewrite encExtensions_cons. now rewrite app_assoc. }
    assert (Lb : lenZ b = lenZ pre + 4 + lenZ (snd x) + lenZ (encExtensions xs)).
    { rewrite Hb. autorewrite with lens. lia. }
    destruct (Z_lt_dec (lenZ pre + 4) (lenZ b)) as [Hlt|Hge];
      [|apply sniExtensions_done; lia].
    destruct fuel as [|fuel]; [cbn [length] in Hfuel; lia|].
    rewrite sniExtensions_step by lia.
    assert (Htype : be16Z b (lenZ pre) = fst x).
    { apply be16Z_at with (pre := pre) (rest := u16 (lenZ (snd x)) ++ snd x ++ encExtensions xs);
        [unfold b, encExtension; same_bytes|reflexivity|lia]. }
    assert (Hsize : be16Z b (lenZ pre + 2) = lenZ (snd x)).
    { apply be16Z_at with (pre := pre ++ u16 (fst x)) (rest := snd x ++ encExtensions xs);
        [unfold b, encExtension; same_bytes|autorewrite with lens; reflexivity|lia]. }
    rewrite Htype, Hsize.
    destruct (Z.eqb_spec (fst x) 0) as [|_]; [contradiction|].
    replace (lenZ pre + 4 + lenZ (snd x)) with (lenZ (pre ++ encExtension x))
      by (autorewrite with lens; lia).
    rewrite Hb. apply IH; try assumption. cbn [length] in Hfuel. lia.
Qed.

(** X4.  A well-formed ClientHello without a server_name extension has no
    name: whatever its other extensions are, [SNI] returns the empty
    string. *)
Theorem SNI_absent_is_empty (h : ClientHello) (hdr : TLSHeader) (sp : list byte) :
  wellFormedHello h ->
  Forall (fun x => fst x <> 0) (extensions h) ->
  SNI (mkRecord hdr (mkSlice (encClientHello h) sp)) = Ret EmptyString.
Proof.
  intros Hwf Hother.
  destruct (hello_offsets Hwf) as (Hfits & Hend & fixed & Hb & Hfixed).
  destruct Hwf as (_ & _ & _ & _ & _ & Hall).
  rewrite SNI_fixed_part, Hfits, Hend, <- Hfixed.
  pose proof (encExtensions_count (extensions h)) as Hcount.
  pose proof (lenZ_nonneg fixed) as Pfixed.
  assert (Hlen : lenZ (encClientHello h) = lenZ fixed + lenZ (encExtensions (extensions h))).
  { rewrite Hb at 1. apply lenZ_app. }
  rewrite Hb. apply sniExtensions_no_server_name; try assumption.
  rewrite <- Hb. lia.
Qed.

Lemma SNI_absent_is_empty_witness :
  SNI (mkRecord (mkHeader 22 0x0303)
         (mkSlice (encClientHello (sampleHello [(10, bytesOfZ [0; 2; 0; 23]); (11, bytesOfZ [1; 0]);
                                                (35, [])]))
                  (bytesOfZ [9; 9])))
  = Ret EmptyString.
Proof.
  apply SNI_absent_is_empty.
  - unfold wellFormedHello, wellFormedExtension. vm_compute.
    repeat split; try reflexivity; try discriminate;
      repeat (constructor; try (split; [split; [discriminate|reflexivity]|reflexivity])).
  - repeat constructor; discriminate.
Defined.

Lemma byteAtZ_firstn (b : list byte) (n : nat) (i : Z) :
  0 <= i < Z.of_nat n -> byteAtZ (firstn n b) i = byteAtZ b i.
Proof.
  intros H. unfold byteAtZ, byteAt. rewrite nth_firstn.
  destruct (Nat.ltb_spec (Z.to_nat i) n); [reflexivity|lia].
Qed.

Lemma be16Z_firstn (b : list byte) (n : nat) (i : Z) :
  0 <= i -> i + 2 <= Z.of_nat n -> be16Z (firstn n b) i = be16Z b i.
Proof.
  intros H1 H2. unfold be16Z, be16, byteAt. rewrite !nth_firstn.
  destruct (Nat.ltb_spec (Z.to_nat i) n); [|lia].
  destruct (Nat.ltb_spec (S (Z.to_nat i)) n); [reflexivity|lia].
Qed.

(** A body cut short fails one of the five checks of the fixed part, as
    long as the whole body ends where its extensions end. *)
Lemma prefixFits_firstn (b : list byte) (n : nat) :
  extensionsEnd b = lenZ b -> (n < length b)%nat -> prefixFits (firstn n b) = false.
Proof.
  intros Hend Hn. unfold prefixFits.
  assert (Ln : lenZ (firstn n b) = Z.of_nat n) by (unfold lenZ; rewrite length_firstn; lia).
  rewrite Ln.
  pose proof (byteAtZ_range b 38) as R1.
  pose proof (be16Z_range b (cipherSuitesAt b)) as R2.
  pose proof (byteAtZ_range b (compressionAt b)) as R3.
  assert (P1 : 39 <= cipherSuitesAt b) by (unfold cipherSuitesAt; lia).
  assert (P2 : cipherSuitesAt b + 2 <= compressionAt b) by (unfold compressionAt; lia).
  assert (P3 : compressionAt b + 1 <= extensionsLenAt b) by (unfold extensionsLenAt; lia).
  destruct (Z.leb_spec 38 (Z.of_nat n - 1)) as [H1|_]; [|reflexivity]. cbn [andb].
  assert (E1 : cipherSuitesAt (firstn n b) = cipherSuitesAt b).
  { unfold cipherSuitesAt. now rewrite byteAtZ_firstn by lia. }
  rewrite E1.
  destruct (Z.leb_spec (cipherSuitesAt b) (Z.of_nat n - 2)) as [H2|_];
    [|reflexivity]. cbn [andb].
  assert (E2 : compressionAt (firstn n b) = compressionAt b).
  { unfold compressionAt. rewrite E1. now rewrite be16Z_firstn by lia. }
  rewrite E2.
  destruct (Z.leb_spec (compressionAt b) (Z.of_nat n - 1)) as [H3|_];
    [|reflexivity]. cbn [andb].
  assert (E3 : extensionsLenAt (firstn n b) = extensionsLenAt b).
  { unfold extensionsLenAt. rewrite E2. now rewrite byteAtZ_firstn by lia. }
  rewrite E3.
  destruct (Z.leb_spec (extensionsLenAt b) (Z.of_nat n - 2)) as [H4|_];
    [|reflexivity]. cbn [andb].
  assert (E4 : extensionsEnd (firstn n b) = extensionsEnd b).
  { unfold extensionsEnd, extensionsAt. rewrite E3. now rewrite be16Z_firstn by lia. }
  rewrite E4, Hend.
  destruct (Z.leb_spec (lenZ b) (Z.of_nat n)) as [H5|_]; [|reflexivity].
  unfold lenZ in H5. lia.
Qed.

(** X5.  No name is taken from a ClientHello that is cut short: on every
    proper prefix of a well-formed body, whatever lies behind it in the
    backing array, [SNI] returns the empty string. *)
Theorem SNI_cut_short_is_empty (h : ClientHello) (n : nat) (hdr : TLSHeader) (sp : list byte) :
  wellFormedHello h ->
  (n < length (encClientHello h))%nat ->
  SNI (mkRecord hdr (mkSlice (firstn n (encClientHello h)) sp)) = Ret EmptyString.
Proof.
  intros Hwf Hn. destruct (hello_offsets Hwf) as (_ & Hend & _).
  rewrite SNI_fixed_part. now rewrite prefixFits_firstn.
Qed.

Lemma SNI_cut_short_is_empty_witness :
  SNI (mkRecord (mkHeader 22 0x0303)
         (mkSlice (firstn 66 (encClientHello
                                (sampleHello [serverNameExtension
                                                [(0, bytesOfString "example.com")]])))
                  (bytesOfString "m")))
  = Ret EmptyString.
Proof.
  apply SNI_cut_short_is_empty.
  - unfold wellFormedHello, wellFormedExtension. vm_compute.
    repeat split; try reflexivity; try discriminate;
      repeat (constructor; try (split; [split; [discriminate|reflexivity]|reflexivity])).
  - vm_compute. lia.
Defined.

(* ===================================================================== *)
(** * Entries behind a pattern that matches the empty string *)
(* ===================================================================== *)

Lemma nullable_matches_everywhere (re : Regexp) (s : string) :
  nullable re = true -> MatchString re s = true.
Proof.
  intros H. destruct s; cbn [MatchString matchPrefix]; rewrite H; reflexivity.
Qed.

(** X6.  A pattern that can match the empty string, such as [.*], finds a
    match in every name, because the match may start anywhere and be
    empty.  So a table that holds such an entry never answers not-found,
    and [Get] never returns an entry that stands behind it. *)
Theorem Get_stops_at_catch_all (db : EndpointDB) (l1 l2 : list EndpointEntry)
        (ep : EndpointEntry) (re : Regexp) (endpoint : string) :
  compiled db ->
  endpoints db = l1 ++ ep :: l2 ->
  regex ep = Some re ->
  nullable re = true ->
  entryHit ep endpoint = true /\
  exists found before behind,
    Get db endpoint = Ret (found, None) /\
    l1 ++ [ep] = before ++ found :: behind /\
    Forall (fun e => entryHit e endpoint = false) before.
Proof.
  intros Hdb Heps Hre Hnull.
  assert (Hhit : entryHit ep endpoint = true).
  { unfold entryHit. rewrite Hre. now apply nullable_matches_everywhere. }
  split; [exact Hhit|].
  unfold compiled in Hdb. rewrite Heps in Hdb.
  assert (Hfront : Forall (fun e => regex e <> None) (l1 ++ [ep])).
  { apply Forall_app in Hdb. destruct Hdb as [H1 H2]. apply Forall_app. split; [exact H1|].
    constructor; [now apply Forall_inv in H2|constructor]. }
  destruct (scanEndpoints_first_match endpoint Hfront)
    as [(before & found & behind & Heq & Hmiss & Hfound & _)|[Hnone _]].
  - exists found, before, behind. split; [|split; assumption].
    unfold Get. rewrite Heps.
    replace (l1 ++ ep :: l2) with ((l1 ++ [ep]) ++ l2) by (now rewrite <- app_assoc).
    rewrite Heq, <- app_assoc. cbn [app]. apply scanEndpoints_hit.
    + rewrite Heq in Hfront. apply Forall_app in Hfront. destruct Hfront as [Hf _].
      rewrite Forall_forall in *. intros e Hin. split; [now apply Hf|now apply Hmiss].
    + rewrite Heq in Hfront. apply Forall_app in Hfront. destruct Hfront as [_ Hf].
      now apply Forall_inv in Hf.
    + exact Hfound.
  - exfalso. apply Forall_app in Hnone. destruct Hnone as [_ Hnone].
    apply Forall_inv in Hnone. congruence.
Qed.

Lemma Get_stops_at_catch_all_witness :
  entryHit catchAllEntry "no.such.host" = true /\
  exists found before behind,
    Get (mkDB [aComEntry; catchAllEntry; aComEntry] "endpoints.txt") "no.such.host"
    = Ret (found, None) /\
    [aComEntry] ++ [catchAllEntry] = before ++ found :: behind /\
    Forall (fun e => entryHit e "no.such.host" = false) before.
Proof.
  apply (@Get_stops_at_catch_all (mkDB [aComEntry; catchAllEntry; aComEntry] "endpoints.txt")
           [aComEntry] [aComEntry] catchAllEntry (patternOf ".*") "no.such.host").
  - repeat constructor; discriminate.
  - reflexivity.
  - reflexivity.
  - reflexivity.
Defined.

(* ===================================================================== *)
(** * The records [parseTLSHandshake] accepts *)
(* ===================================================================== *)

Lemma uint16_small (z : Z) : 0 <= z < 65536 -> uint16 z = z.
Proof. intros H. unfold uint16. now apply Z.mod_small. Qed.

Lemma uint16_wrapped (z : Z) : 65536 <= z < 131072 -> uint16 z = z - 65536.
Proof. intros H. unfold uint16. symmetry. apply Z.mod_unique with 1; lia. Qed.

(** The body of an accepted record, cut from the visible bytes. *)
Lemma reslice_body (buf : slice) (size : Z) :
  0 <= size -> 5 + size <= len buf ->
  exists body,
    reslice buf 5 (size + 5) = Ret body /\
    elems body = firstn (Z.to_nat size) (skipn 5 (elems buf)) /\
    len body = size.
Proof.
  intros Hsize Hfit. pose proof (len_le_cap buf) as Hcap.
  rewrite reslice_Ret by lia. eexists. split; [reflexivity|].
  unfold backing, len in *. cbn [elems]. replace (size + 5 - 5) with size by lia.
  change (Z.to_nat 5) with 5%nat.
  rewrite firstn_skipn_app by lia. split; [reflexivity|].
  rewrite length_firstn, length_skipn. lia.
Qed.

(** A buffer the parser answers without a panic and without [NotTLS] on
    its first byte has its five header bytes in its backing array. *)
Lemma parse_reads_header (buf : slice) (r : TLSRecord) (err : option error) :
  parseTLSHandshake buf = Ret (r, err) -> err <> Some NotTLS ->
  1 <= len buf /\ 5 <= cap buf /\ recordType buf = 22.
Proof.
  intros Hparse Herr.
  assert (Hlen : 1 <= len buf).
  { destruct (Z_le_dec 1 (len buf)) as [H|H]; [exact H|].
    rewrite parse_empty_panics in Hparse; [discriminate|]. unfold len in *. lia. }
  assert (Hty : recordType buf = 22).
  { destruct (Z.eq_dec (recordType buf) 22) as [H|H]; [exact H|].
    rewrite parse_other_type in Hparse by assumption.
    injection Hparse as _ <-. now contradiction Herr. }
  repeat split; try assumption.
  destruct (Z_le_dec 5 (cap buf)) as [H|H]; [exact H|].
  rewrite parse_short_array_panics in Hparse by (assumption || lia). discriminate.
Qed.

(** X7.  [parseTLSHandshake] accepts a buffer exactly when it starts with
    byte 22, carries one of the four known versions, declares at most
    65530 bytes and holds all of them; the record it returns then has
    type 22, that version, and as its body exactly the declared number of
    bytes that follow the five header bytes, whatever follows them. *)
Theorem parse_accepts_whole_records (buf : slice) :
  ((exists r, parseTLSHandshake buf = Ret (r, None)) <->
   (recordType buf = 22 /\ knownVersion (recordVersion buf) = true /\
    declaredSize buf <= 65530 /\ 5 + declaredSize buf <= len buf)) /\
  (forall r,
      parseTLSHandshake buf = Ret (r, None) ->
      Header r = mkHeader 22 (recordVersion buf) /\
      knownVersion (Version (Header r)) = true /\
      elems (Body r) = firstn (Z.to_nat (declaredSize buf)) (skipn 5 (elems buf)) /\
      len (Body r) = declaredSize buf).
Proof.
  pose proof (be16_range (backing buf) 3) as Hr. fold (declaredSize buf) in Hr.
  assert (Hsound : forall r,
             parseTLSHandshake buf = Ret (r, None) ->
             (recordType buf = 22 /\ knownVersion (recordVersion buf) = true /\
              declaredSize buf <= 65530 /\ 5 + declaredSize buf <= len buf) /\
             Header r = mkHeader 22 (recordVersion buf) /\
             elems (Body r) = firstn (Z.to_nat (declaredSize buf)) (skipn 5 (elems buf)) /\
             len (Body r) = declaredSize buf).
  { intros r Hparse.
    destruct (@parse_reads_header buf r None Hparse) as (Hlen & Hcap & Hty); [discriminate|].
    rewrite parse_with_header in Hparse by assumption.
    rewrite Hty in Hparse. cbn [Z.eqb Pos.eqb negb] in Hparse.
    destruct (knownVersion (recordVersion buf)) eqn:Hv; cbn [negb] in Hparse; [|discriminate].
    destruct (Z.gtb_spec (uint16 (declaredSize buf + 5)) (len buf)) as [|Hfull];
      [discriminate|].
    destruct (Z_le_dec (declaredSize buf) 65530) as [Hmax|Hmax].
    - rewrite uint16_small in Hparse, Hfull by lia.
      destruct (@reslice_body buf (declaredSize buf)) as (body & Hbody & Helems & Hblen);
        try lia.
      rewrite Hbody in Hparse. cbn [bind] in Hparse. injection Hparse as <-.
      cbn [Header Body]. repeat split; try assumption; lia.
    - rewrite uint16_wrapped in Hparse by lia.
      rewrite reslice_Panic in Hparse by lia. discriminate. }
  split; [split|].
  - intros [r Hparse]. now destruct (Hsound r Hparse) as [H _].
  - intros (Hty & Hv & Hmax & Hfull).
    pose proof (recordType_nonempty buf Hty) as Hlen. pose proof (len_le_cap buf) as Hcap.
    rewrite parse_with_header by lia. rewrite Hty, Hv. cbn [Z.eqb Pos.eqb negb].
    rewrite uint16_small by lia.
    destruct (Z.gtb_spec (declaredSize buf + 5) (len buf)); [lia|].
    destruct (@reslice_body buf (declaredSize buf)) as (body & Hbody & _); try lia.
    rewrite Hbody. cbn [bind]. eexists. reflexivity.
  - intros r Hparse. destruct (Hsound r Hparse) as ((_ & Hv & _) & Hhdr & Helems & Hblen).
    rewrite Hhdr. cbn [Version]. repeat split; assumption.
Qed.

Lemma parse_accepts_whole_records_witness :
  exists r,
    parseTLSHandshake (mkSlice (bytesOfZ [22; 3; 3; 0; 2; 7; 8; 9]) (bytesOfZ [1; 1])) = Ret (r, None) /\
    elems (Body r) = bytesOfZ [7; 8].
Proof.
  destruct (parse_accepts_whole_records
              (mkSlice (bytesOfZ [22; 3; 3; 0; 2; 7; 8; 9]) (bytesOfZ [1; 1])))
    as [[_ Haccept] Hrecord].
  destruct Haccept as [r Hr].
  - vm_compute. repeat split; discriminate.
  - exists r. split; [exact Hr|]. destruct (Hrecord r Hr) as (_ & _ & Helems & _).
    rewrite Helems. reflexivity.
Defined.

(* ===================================================================== *)
(** * What the first bytes of a connection do to the peeker *)
(* ===================================================================== *)

Section FirstBytes.

Variable bufferSpare : list byte -> list byte.
Variable dial : string -> option error.

(** One turn of the loop whose read brings no failure: the new bytes are
    appended and the parser decides how to go on. *)
Lemma peekLoop_turn (reader : Reader) (fuel k : nat) (content : list byte) (tls : TLSRecord) :
  (forall e, readErr (reader k) = Some e -> errors_Is e io_EOF = true) ->
  peekLoop bufferSpare (S fuel) reader k content tls (Some ReadMore)
  = (res <- parseTLSHandshake (Bytes bufferSpare (content ++ data (reader k))) ;;
     peekLoop bufferSpare fuel reader (S k) (content ++ data (reader k)) (fst res) (snd res)).
Proof.
  intros Heof. cbn [peekLoop isErr errors_Is same_sentinel orb].
  destruct (readErr (reader k)) as [re|]; [|reflexivity].
  rewrite (Heof re eq_refl). reflexivity.
Qed.

(** X8.  A connection whose first read brings no bytes, be it with
    [io.EOF] (the client closed at once) or without error, makes the
    peeker call the parser on an empty buffer: the parser indexes
    [buf[0]] and panics, and so does [HandleConnection]. *)
Theorem empty_first_read_panics (fuel : nat) (db : EndpointDB) (conn : Conn) :
  data (reads conn 0%nat) = [] ->
  (forall e, readErr (reads conn 0%nat) = Some e -> errors_Is e io_EOF = true) ->
  peekClientHello bufferSpare (S fuel) (reads conn) = Panic "index out of range" /\
  (setDeadline conn = None ->
   HandleConnection bufferSpare dial (S fuel) db conn = Panic "index out of range").
Proof.
  intros Hdata Heof.
  assert (Hpeek : peekClientHello bufferSpare (S fuel) (reads conn) = Panic "index out of range").
  { unfold peekClientHello. rewrite peekLoop_turn by exact Heof.
    rewrite Hdata. cbn [app]. rewrite parse_empty_panics by reflexivity. reflexivity. }
  split; [exact Hpeek|].
  intros Hset. unfold HandleConnection. rewrite Hset, Hpeek. reflexivity.
Qed.

(** X9.  A connection whose first read brings bytes that do not start
    with 22 is not taken for TLS: after that one read the peeker returns
    the empty name, the bytes read and [NotTLS], and [HandleConnection]
    asks the table for "*". *)
Theorem plain_first_bytes_route_to_star (fuel : nat) (db : EndpointDB) (conn : Conn)
        (b : byte) (rest : list byte) :
  data (reads conn 0%nat) = b :: rest ->
  byteZ b <> 22 ->
  (forall e, readErr (reads conn 0%nat) = Some e -> errors_Is e io_EOF = true) ->
  peekClientHello bufferSpare (S fuel) (reads conn)
    = Ret (mkPeeked EmptyString (b :: rest) (Some NotTLS) 1) /\
  (setDeadline conn = None -> clearDeadline conn = None -> compiled db ->
   decisionOf (HandleConnection bufferSpare dial (S fuel) db conn) = Routed "*").
Proof.
  intros Hdata Hb Heof.
  assert (Hpeek : peekClientHello bufferSpare (S fuel) (reads conn)
                  = Ret (mkPeeked EmptyString (b :: rest) (Some NotTLS) 1)).
  { unfold peekClientHello. rewrite peekLoop_turn by exact Heof.
    rewrite Hdata. cbn [app].
    rewrite parse_other_type; [|unfold len, Bytes; cbn [elems length]; lia|exact Hb].
    cbn [bind fst snd]. destruct fuel; reflexivity. }
  split; [exact Hpeek|].
  intros Hset Hclear Hdb. unfold HandleConnection. rewrite Hset, Hpeek.
  cbn [bind peekErr errors_Is same_sentinel orb]. now apply routeAndRelay_looks_up.
Qed.

(** X10.  Once the buffer holds the header of a handshake record that
    declares 65531 bytes or more, [size+5] wraps around in [uint16], the
    length test passes and the parser slices [buf[5 : size+5]] with an end
    below 5: the peeker panics, at whichever read the header is there. *)
Theorem oversized_record_panics (reader : Reader) (fuel k : nat) (content : list byte) :
  stillPeeking bufferSpare reader k content ->
  (forall e, readErr (reader k) = Some e -> errors_Is e io_EOF = true) ->
  5 <= lenZ (content ++ data (reader k)) ->
  byteAt (content ++ data (reader k)) 0 = 22 ->
  knownVersion (be16 (content ++ data (reader k)) 1) = true ->
  65531 <= be16 (content ++ data (reader k)) 3 ->
  peekClientHello bufferSpare (k + S fuel) reader = Panic "slice bounds out of range".
Proof.
  intros Hstill Heof Hlen Hty Hv Hsize.
  rewrite (peek_reaches Hstill). rewrite peekLoop_turn by exact Heof.
  set (buf := content ++ data (reader k)) in *.
  assert (Hvis : (5 <= length (elems (Bytes bufferSpare buf)))%nat)
    by (unfold Bytes, lenZ in *; cbn [elems]; lia).
  rewrite parse_size_wraps; [reflexivity| | | |].
  - unfold len. lia.
  - exact Hty.
  - unfold recordVersion. rewrite be16_backing by lia. exact Hv.
  - unfold declaredSize. rewrite be16_backing by lia. exact Hsize.
Qed.

End FirstBytes.

Lemma empty_first_read_panics_witness :
  peekClientHello smallBufferSpare 3 (reads (connOf (always (mkRead [] (Some io_EOF)))))
    = Panic "index out of range" /\
  (setDeadline (connOf (always (mkRead [] (Some io_EOF)))) = None ->
   HandleConnection smallBufferSpare dialOk 3 sampleDB (connOf (always (mkRead [] (Some io_EOF))))
   = Panic "index out of range").
Proof.
  apply (@empty_first_read_panics smallBufferSpare dialOk 2 sampleDB
           (connOf (always (mkRead [] (Some io_EOF))))).
  - reflexivity.
  - intros e He. injection He as <-. reflexivity.
Defined.

Lemma plain_first_bytes_route_to_star_witness :
  peekClientHello smallBufferSpare 1 (always (mkRead (bytesOfString "HELLO") None))
  = Ret (mkPeeked EmptyString (bytesOfString "HELLO") (Some NotTLS) 1).
Proof.
  apply (@plain_first_bytes_route_to_star smallBufferSpare dialOk 0 sampleDB
           (connOf (always (mkRead (bytesOfString "HELLO") None)))
           "H"%byte (bytesOfString "ELLO")).
  - reflexivity.
  - vm_compute. discriminate.
  - intros e He. discriminate.
Defined.

Lemma oversized_record_panics_witness :
  peekClientHello smallBufferSpare 2
    (inChunks [bytesOfZ [22; 3; 1]; bytesOfZ ([255; 251] ++ repeat 65 10)])
  = Panic "slice bounds out of range".
Proof.
  apply (@oversized_record_panics smallBufferSpare
           (inChunks [bytesOfZ [22; 3; 1]; bytesOfZ ([255; 251] ++ repeat 65 10)])
           0 1 (bytesOfZ [22; 3; 1])).
  - apply (@peeking_more smallBufferSpare
             (inChunks [bytesOfZ [22; 3; 1]; bytesOfZ ([255; 251] ++ repeat 65 10)]) 0 []).
    + apply peeking_start.
    + intros e He. discriminate.
    + vm_compute. reflexivity.
  - intros e He. discriminate.
  - vm_compute. discriminate.
  - reflexivity.
  - reflexivity.
  - vm_compute. discriminate.
Defined.

(* ===================================================================== *)
(** * A record that arrives in pieces *)
(* ===================================================================== *)

Lemma bytesRead_prefix (reader : Reader) (j m : nat) :
  (j <= m)%nat -> exists t, bytesRead reader m = bytesRead reader j ++ t.
Proof.
  induction 1 as [|m Hle [t IH]].
  - exists []. now rewrite app_nil_r.
  - exists (t ++ data (reader m)). rewrite bytesRead_S, IH. now rewrite app_assoc.
Qed.

Lemma lenZ_recordBytes (version : Z) (body : list byte) :
  lenZ (recordBytes version body) = 5 + lenZ body.
Proof. unfold recordBytes. autorewrite with lens. lia. Qed.

Lemma recordBytes_header (version : Z) (body : list byte) :
  0 <= version < 65536 -> lenZ body < 65536 ->
  byteAt (recordBytes version body) 0 = 22 /\
  be16 (recordBytes version body) 1 = version /\
  be16 (recordBytes version body) 3 = lenZ body.
Proof.
  intros Hv Hb. pose proof (lenZ_nonneg body) as Hn. split; [|split].
  - unfold recordBytes, byteAt, u8. cbn [app nth]. now rewrite byteZ_zbyte.
  - change (be16 (recordBytes version body) 1) with (be16Z (recordBytes version body) 1).
    apply be16Z_at with (pre := u8 22) (rest := u16 (lenZ body) ++ body);
      [reflexivity|reflexivity|exact Hv].
  - change (be16 (recordBytes version body) 3) with (be16Z (recordBytes version body) 3).
    apply be16Z_at with (pre := u8 22 ++ u16 version) (rest := body);
      [unfold recordBytes; now rewrite <- app_assoc|reflexivity|lia].
Qed.

(** Two byte strings that start alike have the same five header bytes. *)
Lemma same_header (acc t rec rest : list byte) :
  acc ++ t = rec ++ rest -> (5 <= length acc)%nat -> (5 <= length rec)%nat ->
  byteAt acc 0 = byteAt rec 0 /\ be16 acc 1 = be16 rec 1 /\ be16 acc 3 = be16 rec 3.
Proof.
  intros Heq Ha Hr.
  assert (Hnth : forall i, (i < 5)%nat -> nth i acc x00 = nth i rec x00).
  { intros i Hi. rewrite <- (app_nth1 acc t) by lia. rewrite Heq. apply app_nth1. lia. }
  unfold be16, byteAt. rewrite !Hnth by lia. repeat split.
Qed.

Lemma knownVersion_range (v : Z) : knownVersion v = true -> 0 <= v < 65536.
Proof.
  unfold knownVersion. intros H.
  repeat (apply orb_prop in H; destruct H as [H|H]); apply Z.eqb_eq in H; lia.
Qed.

Lemma SNI_of_body (h1 h2 : TLSHeader) (b sp : list byte) (name : string) :
  SNI (mkRecord h1 (sliceOf b)) = Ret name ->
  SNI (mkRecord h2 (mkSlice b sp)) = Ret name.
Proof.
  intros H. destruct (SNI_returns h2 b) as [name' [Hret _]].
  rewrite Hret. change (SNI (mkRecord h1 (sliceOf b))) with (SNI (mkRecord h2 (mkSlice b []))) in H.
  rewrite Hret in H. exact H.
Qed.

Section Reassembly.

Variable bufferSpare : list byte -> list byte.

(** The header fields of a buffer of the peeker that is the start of a
    stream that starts with a record. *)
Lemma stream_header (acc t rest body : list byte) (version : Z) :
  acc ++ t = recordBytes version body ++ rest ->
  5 <= lenZ acc -> knownVersion version = true -> lenZ body <= 65530 ->
  5 <= cap (Bytes bufferSpare acc) /\
  recordType (Bytes bufferSpare acc) = 22 /\
  recordVersion (Bytes bufferSpare acc) = version /\
  declaredSize (Bytes bufferSpare acc) = lenZ body.
Proof.
  intros Heq Hlen Hv Hsize. pose proof (knownVersion_range _ Hv) as Hrange.
  pose proof (lenZ_recordBytes version body) as Hrec.
  pose proof (lenZ_nonneg body) as Hn.
  destruct (@same_header acc t (recordBytes version body) rest Heq) as (H0 & H1 & H3);
    [unfold lenZ in *; lia|unfold lenZ in *; lia|].
  destruct (@recordBytes_header version body) as (R0 & R1 & R3); [lia|lia|].
  pose proof (len_le_cap (Bytes bufferSpare acc)) as Hcap.
  assert (Hvis : (5 <= length (elems (Bytes bufferSpare acc)))%nat)
    by (unfold Bytes, lenZ in *; cbn [elems]; lia).
  split; [unfold len in Hcap; lia|].
  unfold recordType, recordVersion, declaredSize. rewrite !be16_backing by lia.
  unfold Bytes. cbn [elems]. rewrite H0, H1, H3. repeat split; assumption.
Qed.

(** X11.  A handshake record that arrives in pieces is put together
    again.  If the first read brings at least the five header bytes, no
    read up to the [n]-th fails (an [io.EOF] aside), the bytes read before
    the [n]-th read are less than the record, and with the [n]-th read the
    buffer holds the whole record, then the peeker returns after that read:
    the name is the one [SNI] finds in the body of the record, there is no
    error, and the buffer holds the record and whatever came with it. *)
Theorem peek_reassembles_record (reader : Reader) (fuel n : nat) (version : Z)
        (body rest : list byte) (hdr : TLSHeader) (name : string) :
  knownVersion version = true ->
  lenZ body <= 65530 ->
  SNI (mkRecord hdr (sliceOf body)) = Ret name ->
  (forall k e, (k <= n)%nat -> readErr (reader k) = Some e -> errors_Is e io_EOF = true) ->
  5 <= lenZ (data (reader 0%nat)) ->
  (forall k, (k < n)%nat -> lenZ (bytesRead reader (S k)) < lenZ (recordBytes version body)) ->
  bytesRead reader (S n) = recordBytes version body ++ rest ->
  (n < fuel)%nat ->
  peekClientHello bufferSpare fuel reader
  = Ret (mkPeeked name (recordBytes version body ++ rest) None (S n)).
Proof.
  intros Hv Hsize Hname Heof Hfirst Hshort Hwhole Hfuel.
  pose proof (lenZ_recordBytes version body) as Hrec.
  pose proof (lenZ_nonneg body) as Hn.
  assert (Hgrow : forall k, lenZ (data (reader 0%nat)) <= lenZ (bytesRead reader (S k))).
  { intros k. destruct (@bytesRead_prefix reader 1 (S k)) as [t Ht]; [lia|].
    rewrite Ht, lenZ_app. pose proof (lenZ_nonneg t).
    unfold bytesRead. cbn [seq map concat]. rewrite app_nil_r. lia. }
  assert (Hstill : forall k, (k <= n)%nat ->
                             stillPeeking bufferSpare reader k (bytesRead reader k)).
  { induction k as [|k IH]; intros Hk.
    - apply peeking_start.
    - rewrite bytesRead_S. apply peeking_more.
      + apply IH. lia.
      + intros e. apply Heof. lia.
      + rewrite <- bytesRead_S.
        destruct (@bytesRead_prefix reader (S k) (S n)) as [t Ht]; [lia|].
        rewrite Hwhole in Ht. symmetry in Ht.
        specialize (Hgrow k). specialize (Hshort k Hk).
        destruct (@stream_header (bytesRead reader (S k)) t rest body version Ht)
          as (Hcap & Hty & Hver & Hdecl); try assumption; [lia|].
        apply parse_reads_more; try assumption.
        * now rewrite Hver.
        * now rewrite Hdecl.
        * rewrite Hdecl. unfold len, Bytes. cbn [elems]. unfold lenZ in *. lia. }
  replace fuel with (n + S (fuel - n - 1))%nat by lia.
  rewrite (peek_reaches (Hstill n (le_n n))).
  rewrite peekLoop_turn by (intros e; apply Heof; lia).
  rewrite <- bytesRead_S, Hwhole.
  set (buf := Bytes bufferSpare (recordBytes version body ++ rest)).
  destruct (@stream_header (recordBytes version body ++ rest) [] rest body version)
    as (Hcap & Hty & Hver & Hdecl); try assumption;
    [now rewrite app_nil_r|rewrite lenZ_app; pose proof (lenZ_nonneg rest); lia|].
  fold buf in Hcap, Hty, Hver, Hdecl.
  assert (Hlen : len buf = 5 + lenZ body + lenZ rest).
  { unfold buf, len, Bytes. cbn [elems]. fold (lenZ (recordBytes version body ++ rest)).
    rewrite lenZ_app. lia. }
  pose proof (lenZ_nonneg rest) as Hrest.
  rewrite parse_with_header by lia.
  rewrite Hty, Hver, Hv, Hdecl. cbn [Z.eqb Pos.eqb negb].
  rewrite uint16_small by lia.
  destruct (Z.gtb_spec (lenZ body + 5) (len buf)); [lia|].
  destruct (@reslice_body buf (lenZ body)) as (bodySlice & Hslice & Helems & _); try lia.
  rewrite Hslice. cbn [bind fst snd].
  assert (Hbody : elems bodySlice = body).
  { rewrite Helems. unfold buf, Bytes. cbn [elems]. change 5%nat with (Z.to_nat 5).
    apply firstn_skipn_at with (pre := u8 22 ++ u16 version ++ u16 (lenZ body)) (rest := rest);
      [unfold recordBytes; repeat rewrite <- app_assoc; reflexivity|reflexivity|reflexivity]. }
  destruct bodySlice as [b sp]. cbn [elems] in Hbody. subst b.
  assert (Hsni : SNI (mkRecord (mkHeader 22 version) (mkSlice body sp)) = Ret name)
    by (now apply SNI_of_body with (h1 := hdr)).
  destruct (fuel - n - 1)%nat; cbn [peekLoop isErr]; rewrite Hsni; reflexivity.
Qed.

End Reassembly.

Lemma peek_reassembles_record_witness :
  let body := encClientHello
                (sampleHello [serverNameExtension [(0, bytesOfString "example.com")]]) in
  let reader := inChunks [firstn 5 helloRecord; firstn 40 (skipn 5 helloRecord);
                          skipn 45 helloRecord ++ bytesOfZ [23; 3; 3]] in
  peekClientHello smallBufferSpare 4 reader
  = Ret (mkPeeked "example.com" (recordBytes 0x0301 body ++ bytesOfZ [23; 3; 3]) None 3).
Proof.
  intros body reader.
  apply (@peek_reassembles_record smallBufferSpare reader 4 2 0x0301 body
           (bytesOfZ [23; 3; 3]) (mkHeader 22 0x0301) "example.com").
  - reflexivity.
  - vm_compute. discriminate.
  - vm_compute. reflexivity.
  - intros k e Hk He. destruct k as [|[|[|k]]]; try discriminate; lia.
  - vm_compute. discriminate.
  - intros k Hk. destruct k as [|[|k]]; [vm_compute; reflexivity|vm_compute; reflexivity|lia].
  - vm_compute. reflexivity.
  - lia.
Defined.

(* ===================================================================== *)
(** * How much the peeker reads *)
(* ===================================================================== *)

Lemma parse_ReadMore_bound (buf : slice) (r : TLSRecord) :
  parseTLSHandshake buf = Ret (r, Some ReadMore) -> len buf < 65536.
Proof.
  intros Hparse.
  destruct (@parse_reads_header buf r (Some ReadMore) Hparse) as (Hlen & Hcap & Hty);
    [discriminate|].
  rewrite parse_with_header in Hparse by assumption.
  rewrite Hty in Hparse. cbn [Z.eqb Pos.eqb negb] in Hparse.
  destruct (negb (knownVersion (recordVersion buf))); [discriminate|].
  destruct (Z.gtb_spec (uint16 (declaredSize buf + 5)) (len buf)) as [Hgt|_].
  - assert (uint16 (declaredSize buf + 5) < 65536) by (apply Z.mod_pos_bound; lia). lia.
  - destruct (reslice buf 5 (uint16 (declaredSize buf + 5))); discriminate.
Qed.

Section Bound.

Variable bufferSpare : list byte -> list byte.

(** Before each read the buffer holds less than 65536 bytes. *)
Lemma stillPeeking_bound (reader : Reader) (k : nat) (content : list byte) :
  stillPeeking bufferSpare reader k content -> lenZ content < 65536.
Proof.
  destruct 1 as [|k content _ _ Hparse]; [reflexivity|].
  apply parse_ReadMore_bound in Hparse. exact Hparse.
Qed.

(** A peek that returns has made a last read, before which the parser was
    still asking for more. *)
Lemma peekLoop_last_read (reader : Reader) (fuel : nat) :
  forall k content p,
    stillPeeking bufferSpare reader k content ->
    peekLoop bufferSpare fuel reader k content zeroRecord (Some ReadMore) = Ret p ->
    exists j, readsDone p = S j /\ stillPeeking bufferSpare reader j (bytesRead reader j).
Proof.
  induction fuel as [|fuel IH]; intros k content p Hstill Hrun; [discriminate|].
  pose proof (stillPeeking_bytes Hstill) as Hcontent.
  assert (Hhere : stillPeeking bufferSpare reader k (bytesRead reader k))
    by (now rewrite <- Hcontent).
  cbn [peekLoop isErr errors_Is same_sentinel orb] in Hrun.
  assert (Hparse :
            (forall e, readErr (reader k) = Some e -> errors_Is e io_EOF = true) ->
            (res <- parseTLSHandshake (Bytes bufferSpare (content ++ data (reader k))) ;;
             peekLoop bufferSpare fuel reader (S k) (content ++ data (reader k))
               (fst res) (snd res)) = Ret p ->
            exists j, readsDone p = S j /\
                      stillPeeking bufferSpare reader j (bytesRead reader j)).
  { intros Heof Hrest.
    destruct (parse_verdicts (Bytes bufferSpare (content ++ data (reader k))))
      as [[msg Hp]|[Hp|[Hp|[r Hp]]]]; rewrite Hp in Hrest; cbn [bind fst snd] in Hrest.
    - discriminate.
    - destruct (@peekLoop_exit bufferSpare reader fuel (S k) (content ++ data (reader k))
                  zeroRecord (Some NotTLS) eq_refl) as [name Hexit].
      rewrite Hexit in Hrest. injection Hrest as <-. now exists k.
    - apply (IH (S k) (content ++ data (reader k)) p); [|exact Hrest].
      now apply peeking_more.
    - destruct (@peekLoop_exit bufferSpare reader fuel (S k) (content ++ data (reader k))
                  r None eq_refl) as [name Hexit].
      rewrite Hexit in Hrest. injection Hrest as <-. now exists k. }
  destruct (readErr (reader k)) as [re|] eqn:Herr.
  - destruct (errors_Is re io_EOF) eqn:Heof; cbn [negb orb] in Hrun.
    + apply Hparse; [|exact Hrun]. intros e He. now injection He as <-.
    + injection Hrun as <-. now exists k.
  - apply Hparse; [|exact Hrun]. intros e He. discriminate.
Qed.

(** X12.  The peeker reads no further once 65536 bytes are in its buffer.
    A peek that returns has made a last read before which the buffer held
    fewer than 65536 bytes, so its buffer holds fewer than 65536 bytes
    plus that last chunk; and when the first [fuel] reads bring 65536
    bytes or more, the peek is over within them: it has returned or the
    parser has panicked. *)
Theorem peek_reads_at_most_64k (fuel : nat) (reader : Reader) :
  (forall p,
      peekClientHello bufferSpare fuel reader = Ret p ->
      exists j,
        readsDone p = S j /\
        lenZ (bytesRead reader j) < 65536 /\
        peekedBytes p = bytesRead reader j ++ data (reader j) /\
        lenZ (peekedBytes p) < 65536 + lenZ (data (reader j))) /\
  (65536 <= lenZ (bytesRead reader fuel) ->
   peekClientHello bufferSpare fuel reader <> Diverge).
Proof.
  unfold peekClientHello. split.
  - intros p Hrun.
    destruct (@peekLoop_last_read reader fuel 0%nat [] p (peeking_start bufferSpare reader) Hrun)
      as (j & Hj & Hstill).
    destruct (@peekLoop_keeps_every_byte bufferSpare reader fuel 0%nat [] zeroRecord
                (Some ReadMore) p eq_refl Hrun) as [_ Hbytes].
    pose proof (stillPeeking_bound Hstill) as Hbound.
    exists j. rewrite Hbytes, Hj, bytesRead_S, lenZ_app. repeat split; try assumption. lia.
  - intros Hmany Hdiv.
    destruct (@peekLoop_outcomes bufferSpare reader fuel 0%nat [] (peeking_start bufferSpare reader))
      as [[p Hret]|[(j & msg & _ & _ & Hpanic)|[_ Hstill]]].
    + rewrite Hret in Hdiv. discriminate.
    + rewrite Hpanic in Hdiv. discriminate.
    + cbn [Nat.add] in Hstill. apply stillPeeking_bound in Hstill. lia.
Qed.

End Bound.

Lemma peek_reads_at_most_64k_witness :
  peekClientHello noSpare 3
    (inChunks [bytesOfZ [22; 3; 3; 255; 250];
               repeat x00 (Z.to_nat 40000); repeat x00 (Z.to_nat 40000)])
  <> Diverge.
Proof.
  destruct (@peek_reads_at_most_64k noSpare 3
              (inChunks [bytesOfZ [22; 3; 3; 255; 250];
                         repeat x00 (Z.to_nat 40000); repeat x00 (Z.to_nat 40000)]))
    as [_ Hover].
  apply Hover. unfold bytesRead, lenZ. cbn [seq map concat inChunks nth data].
  rewrite !length_app, !repeat_length. cbn [length bytesOfZ map]. lia.
Defined.

(* ===================================================================== *)
(** * What the handlers do, in order *)
(* ===================================================================== *)

Section Traces.

Variable bufferSpare : list byte -> list byte.
Variable dial : string -> option error.
Variable handshake : Reader -> handshakeResult.

(** The four ways the common tail of the two handlers returns. *)
Lemma routeAndRelay_shape (db : EndpointDB) (conn : Conn) (k : nat) (name : string)
      (rep : option (list byte)) (trace : list event) (err : option error) :
  routeAndRelay dial db conn [SetReadDeadline; Peeked k] name rep = Ret (trace, err) ->
  (clearDeadline conn <> None /\ err <> None /\
   trace = [SetReadDeadline; Peeked k; ClearReadDeadline; Close]) \/
  (clearDeadline conn = None /\ err <> None /\
   (exists ep gerr, Get db name = Ret (ep, Some gerr)) /\
   trace = [SetReadDeadline; Peeked k; ClearReadDeadline; Lookup name; Close]) \/
  (exists ep,
      clearDeadline conn = None /\ Get db name = Ret (ep, None) /\
      ((dial (Address ep) <> None /\ err <> None /\
        trace = [SetReadDeadline; Peeked k; ClearReadDeadline; Lookup name;
                 Dial (Address ep); Close]) \/
       (dial (Address ep) = None /\ err = None /\
        trace = [SetReadDeadline; Peeked k; ClearReadDeadline; Lookup name;
                 Dial (Address ep); Relay rep (Address ep); Close]))).
Proof.
  unfold routeAndRelay. intros Hrun.
  destruct (clearDeadline conn) as [cerr|] eqn:Hclear.
  - injection Hrun as <- <-. left. repeat split; discriminate.
  - destruct (Get db name) as [[ep gerr]| |] eqn:Hget; cbn [bind fst snd] in Hrun;
      try discriminate.
    destruct gerr as [gerr|].
    + injection Hrun as <- <-. right; left.
      split; [reflexivity|]. split; [discriminate|]. split; [|reflexivity].
      now exists ep, gerr.
    + right; right. exists ep. split; [reflexivity|]. split; [reflexivity|].
      destruct (dial (Address ep)) as [derr|] eqn:Hdial; injection Hrun as <- <-.
      * left. repeat split; discriminate.
      * right. repeat split.
Qed.

(** The invariants of a trace, for a given table and returned error. *)
Lemma routeAndRelay_invariants (db : EndpointDB) (conn : Conn) (k : nat) (name : string)
      (rep : option (list byte)) (trace : list event) (err : option error) :
  routeAndRelay dial db conn [SetReadDeadline; Peeked k] name rep = Ret (trace, err) ->
  hd Close trace = SetReadDeadline /\
  last trace SetReadDeadline = Close /\
  closes trace = 1%nat /\
  (relayed trace = true <-> err = None) /\
  (length (lookups trace) <= 1)%nat /\
  (forall a, In a (dials trace) ->
             exists d ep, lookups trace = [d] /\ Get db d = Ret (ep, None) /\ a = Address ep).
Proof.
  intros Hrun. apply routeAndRelay_shape in Hrun.
  destruct Hrun as [(_ & Herr & ->)|[(_ & Herr & _ & ->)|(ep & _ & Hget & [(_ & Herr & ->)|(_ & -> & ->)])]];
    cbn [hd last closes relayed existsb orb lookups dials length In];
    (split; [reflexivity|]); (split; [reflexivity|]); (split; [reflexivity|]);
    (split; [split; intros Habs; [discriminate Habs || reflexivity
                                 |contradiction || reflexivity]|]);
    (split; [lia|]); intros a Hin; try contradiction.
  - destruct Hin as [<-|[]]. now exists name, ep.
  - destruct Hin as [<-|[]]. now exists name, ep.
Qed.

(** X13.  When the handler with the manual parser returns no error, it has
    done exactly this, in this order: armed the deadline, peeked, cleared
    the deadline, looked up one name, dialled the address of the entry
    [Get] answered, relayed, and closed.  The name is the one [SNI] gave
    when the peek ended without an error and "*" when it ended with
    [NotTLS]; the bytes replayed to the backend are all the bytes the
    peek read from the client, in the order read. *)
Theorem HandleConnection_success_trace (fuel : nat) (db : EndpointDB) (conn : Conn)
        (trace : list event) :
  HandleConnection bufferSpare dial fuel db conn = Ret (trace, None) ->
  exists p name ep,
    setDeadline conn = None /\ clearDeadline conn = None /\
    peekClientHello bufferSpare fuel (reads conn) = Ret p /\
    (peekErr p = None /\ name = sni p \/
     (exists e, peekErr p = Some e /\ errors_Is e NotTLS = true) /\ name = "*"%string) /\
    Get db name = Ret (ep, None) /\
    dial (Address ep) = None /\
    trace = [SetReadDeadline; Peeked (readsDone p); ClearReadDeadline; Lookup name;
             Dial (Address ep);
             Relay (Some (bytesRead (reads conn) (readsDone p))) (Address ep); Close].
Proof.
  unfold HandleConnection. intros Hrun.
  destruct (setDeadline conn) as [serr|] eqn:Hset; [discriminate|].
  destruct (peekClientHello bufferSpare fuel (reads conn)) as [p| |] eqn:Hpeek;
    cbn [bind] in Hrun; try discriminate.
  assert (Hbytes : peekedBytes p = bytesRead (reads conn) (readsDone p)).
  { unfold peekClientHello in Hpeek.
    destruct (@peekLoop_keeps_every_byte bufferSpare (reads conn) fuel 0%nat []
                zeroRecord (Some ReadMore) p eq_refl Hpeek) as [_ Hb]. exact Hb. }
  assert (Htail : forall name,
             routeAndRelay dial db conn [SetReadDeadline; Peeked (readsDone p)] name
               (Some (peekedBytes p)) = Ret (trace, None) ->
             exists ep,
               clearDeadline conn = None /\ Get db name = Ret (ep, None) /\
               dial (Address ep) = None /\
               trace = [SetReadDeadline; Peeked (readsDone p); ClearReadDeadline;
                        Lookup name; Dial (Address ep);
                        Relay (Some (bytesRead (reads conn) (readsDone p))) (Address ep);
                        Close]).
  { intros name Htail. apply routeAndRelay_shape in Htail.
    destruct Htail as [(_ & Herr & _)|[(_ & Herr & _)|(ep & Hclear & Hget & [(_ & Herr & _)|(Hdial & _ & ->)])]];
      try (now contradiction Herr).
    exists ep. rewrite Hbytes. repeat split; assumption. }
  destruct (peekErr p) as [e|] eqn:Herr.
  - destruct (errors_Is e NotTLS) eqn:Hnot.
    + destruct (Htail _ Hrun) as (ep & Hclear & Hget & Hdial & Htrace).
      exists p, "*"%string, ep. repeat split; try assumption.
      right. split; [|reflexivity]. now exists e.
    + discriminate.
  - destruct (Htail _ Hrun) as (ep & Hclear & Hget & Hdial & Htrace).
    exists p, (sni p), ep. repeat split; try assumption. now left.
Qed.

(** X14.  Every return of either handler leaves a trace with these
    invariants: it starts by arming the read deadline and ends by closing
    the client connection, which is closed exactly once; there is a relay
    exactly when the returned error is nil; [Get] is called at most once;
    and a backend is dialled only at the address of the entry [Get]
    answered, without an error, for the one name looked up. *)
Theorem handlers_trace_invariants (fuel : nat) (db : EndpointDB) (conn : Conn)
        (trace : list event) (err : option error) :
  HandleConnection bufferSpare dial fuel db conn = Ret (trace, err) \/
  HandleConnectionTLS dial handshake db conn = Ret (trace, err) ->
  hd Close trace = SetReadDeadline /\
  last trace SetReadDeadline = Close /\
  closes trace = 1%nat /\
  (relayed trace = true <-> err = None) /\
  (length (lookups trace) <= 1)%nat /\
  (forall a, In a (dials trace) ->
             exists d ep, lookups trace = [d] /\ Get db d = Ret (ep, None) /\ a = Address ep).
Proof.
  assert (Hearly : forall e : error,
             hd Close [SetReadDeadline; Close] = SetReadDeadline /\
             last [SetReadDeadline; Close] SetReadDeadline = Close /\
             closes [SetReadDeadline; Close] = 1%nat /\
             (relayed [SetReadDeadline; Close] = true <-> Some e = None) /\
             (length (lookups [SetReadDeadline; Close]) <= 1)%nat /\
             (forall a, In a (dials [SetReadDeadline; Close]) ->
                        exists d ep, lookups [SetReadDeadline; Close] = [d] /\
                                     Get db d = Ret (ep, None) /\ a = Address ep)).
  { intros e. cbn. repeat split; try discriminate; try lia; contradiction. }
  intros [Hrun|Hrun].
  - unfold HandleConnection in Hrun.
    destruct (setDeadline conn) as [serr|]; [injection Hrun as <- <-; apply Hearly|].
    destruct (peekClientHello bufferSpare fuel (reads conn)) as [p| |];
      cbn [bind] in Hrun; try discriminate.
    destruct (peekErr p) as [e|].
    + destruct (errors_Is e NotTLS).
      * exact (routeAndRelay_invariants _ _ _ _ _ Hrun).
      * injection Hrun as <- <-. cbn.
        repeat split; try discriminate; try lia; contradiction.
    + exact (routeAndRelay_invariants _ _ _ _ _ Hrun).
  - unfold HandleConnectionTLS, peekClientHelloTLS in Hrun.
    destruct (setDeadline conn) as [serr|]; [injection Hrun as <- <-; apply Hearly|].
    destruct (hello (handshake (reads conn))) as [info|].
    + exact (routeAndRelay_invariants _ _ _ _ _ Hrun).
    + destruct (handshakeErr (handshake (reads conn))) as [herr|]; [|discriminate].
      exact (routeAndRelay_invariants _ _ _ _ _ Hrun).
Qed.

(** X15.  What the handler with the mock handshake replays.  When it
    relays, and the handshake produced a hello, the backend is sent the
    bytes the tee copied and the name looked up is the hello's server
    name; when the handshake produced no hello, the handshake failed, the
    name looked up is "*" and the buffer handed to the relay is nil: the
    bytes the handshake consumed are not in it. *)
Theorem HandleConnectionTLS_replay (db : EndpointDB) (conn : Conn)
        (trace : list event) (err : option error) (b : option (list byte)) (a : string) :
  HandleConnectionTLS dial handshake db conn = Ret (trace, err) ->
  In (Relay b a) trace ->
  match hello (handshake (reads conn)) with
  | Some info =>
      b = Some (teed (handshake (reads conn))) /\ lookups trace = [ServerName info]
  | None =>
      b = None /\ lookups trace = ["*"%string] /\
      handshakeErr (handshake (reads conn)) <> None
  end.
Proof.
  unfold HandleConnectionTLS, peekClientHelloTLS. intros Hrun Hin.
  assert (Htail : forall k name rep,
             routeAndRelay dial db conn [SetReadDeadline; Peeked k] name rep
             = Ret (trace, err) ->
             b = rep /\ lookups trace = [name]).
  { intros k name rep Htail. apply routeAndRelay_shape in Htail.
    destruct Htail as [(_ & _ & ->)|[(_ & _ & _ & ->)|(ep & _ & _ & [(_ & _ & ->)|(_ & _ & ->)])]];
      cbn [In] in Hin;
      repeat (destruct Hin as [Hin|Hin]; try discriminate Hin); try contradiction.
    injection Hin as <- _. split; reflexivity. }
  destruct (setDeadline conn) as [serr|].
  - injection Hrun as <- <-. destruct Hin as [Hin|[Hin|[]]]; discriminate.
  - destruct (hello (handshake (reads conn))) as [info|].
    + exact (Htail _ _ _ Hrun).
    + destruct (handshakeErr (handshake (reads conn))) as [herr|]; [|discriminate].
      destruct (Htail _ _ _ Hrun) as [-> ->]. repeat split. discriminate.
Qed.

End Traces.
